(** * Epiphany BSP: the per-core runtime of [e_bsp.c]

    A shallow embedding of the core-side BSP runtime: registration and
    address resolution, buffered put/get, the bump-allocated payload pool,
    the tagged message queue and the synchronisation protocol.

    Conventions of the embedding:
    - an [unsigned int] is a [Z] kept in [0, 2^32) by [wrap32]; an [int]
      is a [Z] whose conversion to unsigned is [wrap32] and whose
      arithmetic goes through [sint32];
    - a pointer is a [Z]; byte-addressed memory is a total function from
      addresses to byte values, and [memcpy] reads the source region before
      it writes (C leaves overlapping copies undefined);
    - the C arrays of [ebsp_comm_buf] are total functions of their indices;
      an access outside the declared bounds is undefined in C and is not
      given a meaning here beyond that of the function;
    - the per-core global [coredata], the shared [comm_buf] and the byte
      memory are threaded explicitly through every operation; the memory
      is one flat address space, in which a core-local address and the
      global address the translator gives for it are different cells;
    - mutexes are not modelled: a call runs as a whole, which is what the
      mutex gives the section it guards, and calls of different cores
      interleave call by call; only [bsp_sync] is modelled step by step,
      with its barriers. *)

From Stdlib Require Import ZArith List Bool Lia Permutation.
Import ListNotations.
Local Open Scope Z_scope.

(** ** Machine integers *)

Definition wrap32 (z : Z) : Z := z mod 2 ^ 32.

Definition sint32 (z : Z) : Z := (z + 2 ^ 31) mod 2 ^ 32 - 2 ^ 31.

(** Modelled from the spec: [DATA_PUT_BIT] is declared in the header
    [e_bsp.h], which is not part of the sources; the spec describes it as
    the high bit of the 32-bit byte count field. *)
Definition DATA_PUT_BIT : Z := Z.shiftl 1 31.

(** ** Byte memory *)

Definition memory := Z -> Z.

(** [memcpy dst src n]: the [n] bytes at [src] are copied to [dst]. *)
Definition memcpy (dst src n : Z) (m : memory) : memory :=
  fun a => if (dst <=? a) && (a <? dst + n) then m (src + (a - dst)) else m a.

(** ** Data model *)

(** The diagnostics the runtime relays to the host, named after the
    message constants of the source. *)
Inductive ebsp_error : Type :=
| err_pushreg_multiple
| err_pushreg_overflow
| err_var_not_found (targetpid addr : Z)
| err_get_overflow
| err_put_overflow
| err_put_overflow2
| err_send_overflow.

Record ebsp_core_data : Type := mk_core_data {
  pid : Z;
  nprocs : Z;
  request_counter : Z;
  var_pushed : Z;
  tag_size : Z;
  tag_size_next : Z;
  queue_index : Z;
  message_index : Z
}.

Record ebsp_data_request : Type := mk_data_request {
  req_src : Z;
  req_dst : Z;
  req_nbytes : Z
}.

Record ebsp_message_header : Type := mk_message_header {
  msg_pid : Z;
  msg_tag : Z;
  msg_payload : Z;
  msg_nbytes : Z
}.

Record ebsp_message_queue : Type := mk_message_queue {
  count : Z;
  message : Z -> ebsp_message_header
}.

Record ebsp_comm_buf : Type := mk_comm_buf {
  data_requests : Z -> Z -> ebsp_data_request;
  buffer_size : Z;
  message_queue : Z -> ebsp_message_queue;
  bsp_var_list : Z -> Z -> Z;
  bsp_var_counter : Z;
  msgbuf : option ebsp_error;
  msgflag : Z;
  comm_nprocs : Z;
  initial_tagsize : Z
}.

(** One core's view of the machine: its own [coredata], the shared
    communication buffer, the byte memory, and what the host has printed
    from the diagnostics mailbox (flag value and message, oldest first). *)
Record state : Type := mk_state {
  coredata : ebsp_core_data;
  comm_buf : ebsp_comm_buf;
  mem : memory;
  host_out : list (Z * ebsp_error)
}.

(** *** Field updates *)

Definition with_coredata (cd : ebsp_core_data) (s : state) : state :=
  mk_state cd (comm_buf s) (mem s) (host_out s).

Definition with_comm_buf (cb : ebsp_comm_buf) (s : state) : state :=
  mk_state (coredata s) cb (mem s) (host_out s).

Definition with_mem (m : memory) (s : state) : state :=
  mk_state (coredata s) (comm_buf s) m (host_out s).

Definition set_request_counter (v : Z) (cd : ebsp_core_data) : ebsp_core_data :=
  mk_core_data (pid cd) (nprocs cd) v (var_pushed cd) (tag_size cd)
    (tag_size_next cd) (queue_index cd) (message_index cd).

Definition set_var_pushed (v : Z) (cd : ebsp_core_data) : ebsp_core_data :=
  mk_core_data (pid cd) (nprocs cd) (request_counter cd) v (tag_size cd)
    (tag_size_next cd) (queue_index cd) (message_index cd).

Definition set_tag_size (v : Z) (cd : ebsp_core_data) : ebsp_core_data :=
  mk_core_data (pid cd) (nprocs cd) (request_counter cd) (var_pushed cd) v
    (tag_size_next cd) (queue_index cd) (message_index cd).

Definition set_tag_size_next (v : Z) (cd : ebsp_core_data) : ebsp_core_data :=
  mk_core_data (pid cd) (nprocs cd) (request_counter cd) (var_pushed cd)
    (tag_size cd) v (queue_index cd) (message_index cd).

Definition set_queue_index (v : Z) (cd : ebsp_core_data) : ebsp_core_data :=
  mk_core_data (pid cd) (nprocs cd) (request_counter cd) (var_pushed cd)
    (tag_size cd) (tag_size_next cd) v (message_index cd).

Definition set_message_index (v : Z) (cd : ebsp_core_data) : ebsp_core_data :=
  mk_core_data (pid cd) (nprocs cd) (request_counter cd) (var_pushed cd)
    (tag_size cd) (tag_size_next cd) (queue_index cd) v.

Definition set_data_requests (v : Z -> Z -> ebsp_data_request)
    (cb : ebsp_comm_buf) : ebsp_comm_buf :=
  mk_comm_buf v (buffer_size cb) (message_queue cb) (bsp_var_list cb)
    (bsp_var_counter cb) (msgbuf cb) (msgflag cb)
    (comm_nprocs cb) (initial_tagsize cb).

Definition set_buffer_size (v : Z) (cb : ebsp_comm_buf) : ebsp_comm_buf :=
  mk_comm_buf (data_requests cb) v (message_queue cb) (bsp_var_list cb)
    (bsp_var_counter cb) (msgbuf cb) (msgflag cb)
    (comm_nprocs cb) (initial_tagsize cb).

Definition set_message_queue (v : Z -> ebsp_message_queue)
    (cb : ebsp_comm_buf) : ebsp_comm_buf :=
  mk_comm_buf (data_requests cb) (buffer_size cb) v (bsp_var_list cb)
    (bsp_var_counter cb) (msgbuf cb) (msgflag cb)
    (comm_nprocs cb) (initial_tagsize cb).

Definition set_bsp_var_list (v : Z -> Z -> Z) (cb : ebsp_comm_buf) : ebsp_comm_buf :=
  mk_comm_buf (data_requests cb) (buffer_size cb) (message_queue cb) v
    (bsp_var_counter cb) (msgbuf cb) (msgflag cb)
    (comm_nprocs cb) (initial_tagsize cb).

Definition set_bsp_var_counter (v : Z) (cb : ebsp_comm_buf) : ebsp_comm_buf :=
  mk_comm_buf (data_requests cb) (buffer_size cb) (message_queue cb)
    (bsp_var_list cb) v (msgbuf cb) (msgflag cb)
    (comm_nprocs cb) (initial_tagsize cb).

Definition set_mailbox (e : ebsp_error) (flag : Z) (cb : ebsp_comm_buf) : ebsp_comm_buf :=
  mk_comm_buf (data_requests cb) (buffer_size cb) (message_queue cb)
    (bsp_var_list cb) (bsp_var_counter cb) (Some e) flag
    (comm_nprocs cb) (initial_tagsize cb).

(** Array element updates: [a[i] = v] and [a[i][j] = v]. *)
Definition upd {A : Type} (a : Z -> A) (i : Z) (v : A) : Z -> A :=
  fun k => if k =? i then v else a k.

Definition upd2 {A : Type} (a : Z -> Z -> A) (i j : Z) (v : A) : Z -> Z -> A :=
  fun k => if k =? i then upd (a i) j v else a k.

(** ** What the absent headers provide

    Modelled from the spec: the capacity constants [MAX_BSP_VARS],
    [MAX_DATA_REQUESTS], [MAX_PAYLOAD_SIZE] and [MAX_MESSAGES] are declared
    in [e_bsp.h], and [e_group_config] and [e_get_global_address] in
    [e-lib.h]; neither header is part of the sources. They are taken as
    parameters, the address translator as a pure function of
    (row, column, local address). [payload_buf] is the address of
    [comm_buf->data_payloads.buf]. *)
Record platform : Type := mk_platform {
  MAX_BSP_VARS : Z;
  MAX_DATA_REQUESTS : Z;
  MAX_PAYLOAD_SIZE : Z;
  MAX_MESSAGES : Z;
  group_cols : Z;
  payload_buf : Z;
  e_get_global_address : Z -> Z -> Z -> Z
}.

Section Runtime.

Variable P : platform.

(** ** Start of the program *)

(** [bsp_begin] on the core at ([core_row], [core_col]) of the group:
    the fields of [coredata] it initialises. Barriers, mutexes, the host
    handshake and the timer are outside this model. *)
Definition bsp_begin (core_row core_col : Z) (cb : ebsp_comm_buf) : ebsp_core_data :=
  mk_core_data (sint32 (core_col + group_cols P * core_row))
               (comm_nprocs cb)
               0 0
               (initial_tagsize cb) (initial_tagsize cb)
               0 0.

(** ** Diagnostics channel *)

(** [ebsp_message]: the message is written to the mailbox, the flag is set
    to [pid + 1], and the core spins until the host has printed the
    message and cleared the flag. The returned state is the one in which
    the host has acknowledged. *)
Definition ebsp_message (e : ebsp_error) (s : state) : state :=
  mk_state (coredata s)
           (set_mailbox e 0 (comm_buf s))
           (mem s)
           (host_out s ++ [(pid (coredata s) + 1, e)]).

(** ** Variable registry *)

Definition bsp_push_reg (variable nbytes : Z) (s : state) : state :=
  let cd := coredata s in
  let cb := comm_buf s in
  if negb (var_pushed cd =? 0) then ebsp_message err_pushreg_multiple s
  else if bsp_var_counter cb =? MAX_BSP_VARS P then ebsp_message err_pushreg_overflow s
  else
    with_coredata (set_var_pushed 1 cd)
      (with_comm_buf
         (set_bsp_var_list
            (upd2 (bsp_var_list cb) (bsp_var_counter cb) (pid cd) variable) cb) s).

Definition row_from_pid (p : Z) : Z := Z.quot p (group_cols P).

Definition col_from_pid (p : Z) : Z := Z.rem p (group_cols P).

(** The search loop of [_get_remote_addr]: [n] slots remain to be tried
    from [slot] on. *)
Fixpoint find_slot (n : nat) (slot : Z) (column : Z -> Z) (addr : Z) : option Z :=
  match n with
  | O => None
  | S n' => if column slot =? addr then Some slot
            else find_slot n' (slot + 1) column addr
  end.

Definition own_column (s : state) : Z -> Z :=
  fun slot => bsp_var_list (comm_buf s) slot (pid (coredata s)).

Definition _get_remote_addr (p addr offset : Z) (s : state) : Z * state :=
  match find_slot (Z.to_nat (MAX_BSP_VARS P)) 0 (own_column s) addr with
  | Some slot =>
      (e_get_global_address P (row_from_pid p) (col_from_pid p)
         (wrap32 (bsp_var_list (comm_buf s) slot p + offset)), s)
  | None => (0, ebsp_message (err_var_not_found p addr) s)
  end.

(** ** Buffered and immediate remote access *)

Definition bsp_put (p src dst offset nbytes : Z) (s : state) : state :=
  if MAX_DATA_REQUESTS P <=? request_counter (coredata s)
  then ebsp_message err_put_overflow s
  else
    let '(dst_remote, s1) := _get_remote_addr p dst offset s in
    if dst_remote =? 0 then s1
    else
      let cb := comm_buf s1 in
      (* the section under payload_mutex *)
      let '(payload_offset, cb2) :=
        if MAX_PAYLOAD_SIZE P <? wrap32 (buffer_size cb + nbytes)
        then (wrap32 (-1), cb)
        else (buffer_size cb, set_buffer_size (wrap32 (buffer_size cb + nbytes)) cb) in
      let s2 := with_comm_buf cb2 s1 in
      if payload_offset =? wrap32 (-1) then ebsp_message err_put_overflow2 s2
      else
        let payload_ptr := payload_buf P + payload_offset in
        let cd := coredata s2 in
        let req := mk_data_request payload_ptr dst_remote
                     (Z.lor (wrap32 nbytes) DATA_PUT_BIT) in
        let cb3 := set_data_requests
                     (upd2 (data_requests cb2) (pid cd) (request_counter cd) req) cb2 in
        let cd3 := set_request_counter (wrap32 (request_counter cd + 1)) cd in
        with_mem (memcpy payload_ptr src (wrap32 nbytes) (mem s2))
          (with_coredata cd3 (with_comm_buf cb3 s2)).

Definition bsp_hpput (p src dst offset nbytes : Z) (s : state) : state :=
  let '(dst_remote, s1) := _get_remote_addr p dst offset s in
  if dst_remote =? 0 then s1
  else with_mem (memcpy dst_remote src (wrap32 nbytes) (mem s1)) s1.

Definition bsp_get (p src offset dst nbytes : Z) (s : state) : state :=
  if MAX_DATA_REQUESTS P <=? request_counter (coredata s)
  then ebsp_message err_get_overflow s
  else
    let '(src_remote, s1) := _get_remote_addr p src offset s in
    if src_remote =? 0 then s1
    else
      let cd := coredata s1 in
      let cb := comm_buf s1 in
      let req := mk_data_request src_remote dst (wrap32 nbytes) in
      with_coredata (set_request_counter (wrap32 (request_counter cd + 1)) cd)
        (with_comm_buf
           (set_data_requests
              (upd2 (data_requests cb) (pid cd) (request_counter cd) req) cb) s1).

Definition bsp_hpget (p src offset dst nbytes : Z) (s : state) : state :=
  let '(src_remote, s1) := _get_remote_addr p src offset s in
  if src_remote =? 0 then s1
  else with_mem (memcpy dst src_remote (wrap32 nbytes) (mem s1)) s1.

(** ** Tagged messages *)

(** [bsp_set_tagsize]: the value returned is what the call leaves in
    [*tag_bytes]. *)
Definition bsp_set_tagsize (tag_bytes : Z) (s : state) : Z * state :=
  (sint32 (tag_size (coredata s)),
   with_coredata (set_tag_size_next (wrap32 tag_bytes) (coredata s)) s).

Definition bsp_send (p tag payload nbytes : Z) (s : state) : state :=
  let cd := coredata s in
  let cb := comm_buf s in
  let q := message_queue cb (queue_index cd) in
  (* the section under payload_mutex *)
  let '(index, payload_offset, cb1) :=
    if (MAX_PAYLOAD_SIZE P <? wrap32 (buffer_size cb + tag_size cd + nbytes))
       || (MAX_MESSAGES P <=? count q)
    then (wrap32 (-1), wrap32 (-1), cb)
    else
      (count q, buffer_size cb,
       set_buffer_size (wrap32 (buffer_size cb + nbytes))
         (set_message_queue
            (upd (message_queue cb) (queue_index cd)
               (mk_message_queue (wrap32 (count q + 1)) (message q))) cb)) in
  let s1 := with_comm_buf cb1 s in
  if index =? wrap32 (-1) then ebsp_message err_send_overflow s1
  else
    let tag_ptr := payload_buf P + payload_offset in
    let payload_offset' := wrap32 (payload_offset + tag_size cd) in
    let payload_ptr := payload_buf P + payload_offset' in
    let q1 := message_queue cb1 (queue_index cd) in
    let q2 := mk_message_queue (count q1)
                (upd (message q1) index
                   (mk_message_header p tag_ptr payload_ptr nbytes)) in
    let cb2 := set_message_queue (upd (message_queue cb1) (queue_index cd) q2) cb1 in
    with_mem
      (memcpy payload_ptr payload (wrap32 nbytes)
         (memcpy tag_ptr tag (tag_size cd) (mem s1)))
      (with_comm_buf cb2 s1).

(** The loop of [_next_queue_message]: at most [fuel] entries remain
    between the cursor [idx] and the end of the queue. The result is the
    header found, if any, and the cursor the loop leaves. *)
Fixpoint next_from (fuel : nat) (q : ebsp_message_queue) (me idx : Z)
  : option ebsp_message_header * Z :=
  match fuel with
  | O => (None, idx)
  | S fuel' =>
      if idx <? wrap32 (count q) then
        if negb (msg_pid (message q idx) =? me)
        then next_from fuel' q me (wrap32 (idx + 1))
        else (Some (message q idx), idx)
      else (None, idx)
  end.

Definition active_queue (s : state) : ebsp_message_queue :=
  message_queue (comm_buf s) (queue_index (coredata s)).

Definition remaining (s : state) : nat :=
  Z.to_nat (wrap32 (count (active_queue s)) - message_index (coredata s)).

Definition _next_queue_message (s : state) : option ebsp_message_header * state :=
  let cd := coredata s in
  let '(m, idx) := next_from (remaining s) (active_queue s) (pid cd) (message_index cd) in
  (m, with_coredata (set_message_index idx cd) s).

Definition _pop_queue_message (s : state) : state :=
  with_coredata
    (set_message_index (wrap32 (message_index (coredata s) + 1)) (coredata s)) s.

(** The loop of [bsp_qsize]. The statement [*packets++;] reads the cell
    [packets] points to, discards the value and advances the local pointer
    [packets] by one element; [packets_ptr] is that pointer, counted in
    elements from the address the caller passed. No iteration stores
    through it. [accum] is the cell [*accum_bytes]. *)
Fixpoint qsize_loop (fuel : nat) (q : ebsp_message_queue) (me idx : Z)
    (packets_ptr accum : Z) : Z * Z * Z :=
  match fuel with
  | O => (idx, packets_ptr, accum)
  | S fuel' =>
      if idx <? wrap32 (count q) then
        if negb (msg_pid (message q idx) =? me)
        then qsize_loop fuel' q me (wrap32 (idx + 1)) packets_ptr accum
        else qsize_loop fuel' q me (wrap32 (idx + 1)) (packets_ptr + 1)
               (sint32 (accum + msg_nbytes (message q idx)))
      else (idx, packets_ptr, accum)
  end.

(** [bsp_qsize]: the pair returned is what the call leaves in the two
    cells the caller passed, [*packets] and [*accum_bytes]. The cell of
    [*packets] is stored to once, by [*packets = 0]. *)
Definition bsp_qsize (s : state) : (Z * Z) * state :=
  let cd := coredata s in
  let packets_cell := 0 in
  let '(idx, _, accum) :=
    qsize_loop (remaining s) (active_queue s) (pid cd) (message_index cd) 0 0 in
  ((packets_cell, accum), with_coredata (set_message_index idx cd) s).

(** [bsp_get_tag]: the value returned is what the call leaves in
    [*status]. *)
Definition bsp_get_tag (tag : Z) (s : state) : Z * state :=
  let '(m, s1) := _next_queue_message s in
  match m with
  | None => (-1, s1)
  | Some h =>
      (msg_nbytes h,
       with_mem (memcpy tag (msg_tag h) (tag_size (coredata s1)) (mem s1)) s1)
  end.

Definition bsp_move (payload buffer_size : Z) (s : state) : state :=
  let '(m, s1) := _next_queue_message s in
  let s2 := _pop_queue_message s1 in
  match m with
  | None => s2
  | Some h =>
      if buffer_size =? 0 then s2
      else
        let buffer_size' :=
          if msg_nbytes h <? buffer_size then msg_nbytes h else buffer_size in
        with_mem (memcpy payload (msg_payload h) (wrap32 buffer_size') (mem s2)) s2
  end.

(** [bsp_hpmove]: the return value, and the two pointers stored through
    [tag_ptr_buf] and [payload_ptr_buf] when a message was found. *)
Definition bsp_hpmove (s : state) : (Z * option (Z * Z)) * state :=
  let '(m, s1) := _next_queue_message s in
  let s2 := _pop_queue_message s1 in
  match m with
  | None => ((-1, None), s2)
  | Some h => ((msg_nbytes h, Some (msg_tag h, msg_payload h)), s2)
  end.

End Runtime.

(** ** Synchronisation *)

(** A request is a put when the high bit of its byte count is set; the
    other bits are the number of bytes to copy. *)
Definition is_put_request (r : ebsp_data_request) : bool :=
  negb (Z.land (req_nbytes r) DATA_PUT_BIT =? 0).

Definition request_length (r : ebsp_data_request) : Z :=
  Z.land (req_nbytes r) (wrap32 (Z.lnot DATA_PUT_BIT)).

Definition apply_request (r : ebsp_data_request) (m : memory) : memory :=
  memcpy (req_dst r) (req_src r) (request_length r) m.

(** One of the two request loops of [bsp_sync], from index [i] with [n]
    iterations to go; [puts] is [false] in the first loop, which applies
    the gets, and [true] in the second, which applies the puts. *)
Fixpoint sync_pass (puts : bool) (n : nat) (reqs : Z -> ebsp_data_request)
    (i : Z) (m : memory) : memory :=
  match n with
  | O => m
  | S n' =>
      sync_pass puts n' reqs (i + 1)
        (if Bool.eqb (is_put_request (reqs i)) puts
         then apply_request (reqs i) m else m)
  end.

(** What [bsp_sync] does between its second request loop and its last
    barrier, on the core's own data and on the shared buffer. *)
Definition sync_tail_core (cd : ebsp_core_data) : ebsp_core_data :=
  let cd1 := set_request_counter 0 cd in
  let cd2 := if negb (var_pushed cd1 =? 0) then set_var_pushed 0 cd1 else cd1 in
  let qi := wrap32 (queue_index cd2 + 1) in
  let cd3 := set_queue_index (if qi =? 2 then 0 else qi) cd2 in
  let cd4 := set_tag_size (tag_size_next cd3) cd3 in
  set_message_index 0 cd4.

Definition sync_tail_shared (cd : ebsp_core_data) (cb : ebsp_comm_buf) : ebsp_comm_buf :=
  let cb1 := set_buffer_size 0 cb in
  if negb (var_pushed cd =? 0) && (pid cd =? 0)
  then set_bsp_var_counter (sint32 (bsp_var_counter cb1 + 1)) cb1
  else cb1.

(** [bsp_sync] as one core runs it from its first barrier to its last,
    no other core writing in between. *)
Definition bsp_sync (s : state) : state :=
  let cd := coredata s in
  let reqs := data_requests (comm_buf s) (pid cd) in
  let n := Z.to_nat (request_counter cd) in
  let m1 := sync_pass false n reqs 0 (mem s) in
  let m2 := sync_pass true n reqs 0 m1 in
  mk_state (sync_tail_core cd) (sync_tail_shared cd (comm_buf s)) m2 (host_out s).

(** *** All cores synchronising

    The cores run [bsp_sync] concurrently. Each core is at one of the
    program points below; a core waiting at a barrier leaves it once every
    core has arrived there, which is all the barrier primitive promises. *)
Inductive sync_pc : Type :=
| PcRunning            (* still in the superstep, bsp_sync not yet called *)
| PcBarrier1           (* waiting at the first e_barrier *)
| PcGets (i : Z)       (* in the first loop, about to test i *)
| PcBarrier2           (* waiting at the second e_barrier *)
| PcPuts (i : Z)       (* in the second loop, about to test i *)
| PcBarrier3           (* waiting at the last e_barrier *)
| PcDone.              (* bsp_sync has returned *)

Definition pc_rank (pc : sync_pc) : nat :=
  match pc with
  | PcRunning => 0
  | PcBarrier1 => 1
  | PcGets _ => 2
  | PcBarrier2 => 3
  | PcPuts _ => 4
  | PcBarrier3 => 5
  | PcDone => 6
  end%nat.

Record machine : Type := mk_machine {
  cores : list (ebsp_core_data * sync_pc);
  shared : ebsp_comm_buf;
  ram : memory
}.

(** A copy performed during synchronisation: the core (by position in
    [cores]) and the request it applied. *)
Record sync_event : Type := mk_sync_event {
  ev_core : nat;
  ev_req : ebsp_data_request
}.

Definition ev_is_put (e : sync_event) : bool := is_put_request (ev_req e).

(** Every core has reached a program point of rank [r] or later. *)
Definition all_arrived (r : nat) (mc : machine) : bool :=
  forallb (fun c => Nat.leb r (pc_rank (snd c))) (cores mc).

Fixpoint set_nth {A : Type} (k : nat) (x : A) (l : list A) : list A :=
  match l, k with
  | [], _ => []
  | _ :: t, O => x :: t
  | h :: t, S k' => h :: set_nth k' x t
  end.

Definition set_core (k : nat) (c : ebsp_core_data * sync_pc) (mc : machine) : machine :=
  mk_machine (set_nth k c (cores mc)) (shared mc) (ram mc).

(** One step of core [k], if it can take one: the copies it performs (at
    most one) and the machine afterwards. *)
Definition core_step (k : nat) (mc : machine) : option (list sync_event * machine) :=
  match nth_error (cores mc) k with
  | None => None
  | Some (cd, pc) =>
      match pc with
      | PcRunning => Some ([], set_core k (cd, PcBarrier1) mc)
      | PcBarrier1 =>
          if all_arrived 1 mc then Some ([], set_core k (cd, PcGets 0) mc) else None
      | PcGets i =>
          if i <? request_counter cd then
            let r := data_requests (shared mc) (pid cd) i in
            if negb (is_put_request r)
            then Some ([mk_sync_event k r],
                       mk_machine (set_nth k (cd, PcGets (i + 1)) (cores mc))
                                  (shared mc) (apply_request r (ram mc)))
            else Some ([], set_core k (cd, PcGets (i + 1)) mc)
          else Some ([], set_core k (cd, PcBarrier2) mc)
      | PcBarrier2 =>
          if all_arrived 3 mc then Some ([], set_core k (cd, PcPuts 0) mc) else None
      | PcPuts i =>
          if i <? request_counter cd then
            let r := data_requests (shared mc) (pid cd) i in
            if is_put_request r
            then Some ([mk_sync_event k r],
                       mk_machine (set_nth k (cd, PcPuts (i + 1)) (cores mc))
                                  (shared mc) (apply_request r (ram mc)))
            else Some ([], set_core k (cd, PcPuts (i + 1)) mc)
          else Some ([],
                     mk_machine (set_nth k (sync_tail_core cd, PcBarrier3) (cores mc))
                                (sync_tail_shared cd (shared mc)) (ram mc))
      | PcBarrier3 =>
          if all_arrived 5 mc then Some ([], set_core k (cd, PcDone) mc) else None
      | PcDone => None
      end
  end.

(** A schedule names the core that moves at each step; [run] is [None]
    when the schedule asks a core to move that cannot. *)
Fixpoint run (sched : list nat) (mc : machine) : option (list sync_event * machine) :=
  match sched with
  | [] => Some ([], mc)
  | k :: rest =>
      match core_step k mc with
      | None => None
      | Some (evs, mc1) =>
          match run rest mc1 with
          | None => None
          | Some (evs', mc2) => Some (evs ++ evs', mc2)
          end
      end
  end.

Definition replay (tr : list sync_event) (m : memory) : memory :=
  fold_left (fun m e => apply_request (ev_req e) m) tr m.

(** The pending requests of a core: entries [0 .. request_counter) of its
    row of the request table, in order. *)
Definition pending (cd : ebsp_core_data) (cb : ebsp_comm_buf) : list ebsp_data_request :=
  map (fun i => data_requests cb (pid cd) (Z.of_nat i))
      (seq 0 (Z.to_nat (request_counter cd))).

Definition events_of (k : nat) (tr : list sync_event) : list ebsp_data_request :=
  map ev_req (filter (fun e => Nat.eqb (ev_core e) k) tr).

Definition all_at (pc : sync_pc) (mc : machine) : Prop :=
  Forall (fun c => snd c = pc) (cores mc).

(** ** Calls of the user program *)

(** The operations a core may call between two synchronisations. *)
Inductive bsp_call : Type :=
| call_push_reg (variable nbytes : Z)
| call_put (p src dst offset nbytes : Z)
| call_hpput (p src dst offset nbytes : Z)
| call_get (p src offset dst nbytes : Z)
| call_hpget (p src offset dst nbytes : Z)
| call_set_tagsize (tag_bytes : Z)
| call_send (p tag payload nbytes : Z)
| call_qsize
| call_get_tag (tag : Z)
| call_move (payload buffer_size : Z)
| call_hpmove.

Definition exec_call (P : platform) (c : bsp_call) (s : state) : state :=
  match c with
  | call_push_reg variable nbytes => bsp_push_reg P variable nbytes s
  | call_put p src dst offset nbytes => bsp_put P p src dst offset nbytes s
  | call_hpput p src dst offset nbytes => bsp_hpput P p src dst offset nbytes s
  | call_get p src offset dst nbytes => bsp_get P p src offset dst nbytes s
  | call_hpget p src offset dst nbytes => bsp_hpget P p src offset dst nbytes s
  | call_set_tagsize tag_bytes => snd (bsp_set_tagsize tag_bytes s)
  | call_send p tag payload nbytes => bsp_send P p tag payload nbytes s
  | call_qsize => snd (bsp_qsize s)
  | call_get_tag tag => snd (bsp_get_tag tag s)
  | call_move payload buffer_size => bsp_move payload buffer_size s
  | call_hpmove => snd (bsp_hpmove s)
  end.

(** All cores of the group with what they share. A call of core [k] runs
    on the view made of that core's [coredata] and the shared parts; calls
    of different cores interleave at the granularity of whole calls. *)
Record system : Type := mk_system {
  sys_cores : list ebsp_core_data;
  sys_comm : ebsp_comm_buf;
  sys_mem : memory;
  sys_out : list (Z * ebsp_error)
}.

Definition view (cd : ebsp_core_data) (sys : system) : state :=
  mk_state cd (sys_comm sys) (sys_mem sys) (sys_out sys).

Definition commit (k : nat) (s : state) (sys : system) : system :=
  mk_system (set_nth k (coredata s) (sys_cores sys)) (comm_buf s) (mem s) (host_out s).

Definition on_core (k : nat) (f : state -> state) (sys : system) : system :=
  match nth_error (sys_cores sys) k with
  | None => sys
  | Some cd => commit k (f (view cd sys)) sys
  end.

Fixpoint run_calls (P : platform) (calls : list (nat * bsp_call)) (sys : system) : system :=
  match calls with
  | [] => sys
  | (k, c) :: rest => run_calls P rest (on_core k (exec_call P c) sys)
  end.


(** *** Ranges

    The capacity constants are array sizes and fit the integer types they
    are compared with; byte counts are non-negative [int]s, below the
    discriminator bit. *)
Definition platform_ok (P : platform) : Prop :=
  0 <= MAX_PAYLOAD_SIZE P <= 2 ^ 30 /\
  0 <= MAX_MESSAGES P < 2 ^ 31 /\
  0 <= MAX_DATA_REQUESTS P < 2 ^ 31 /\
  0 <= MAX_BSP_VARS P < 2 ^ 31.

Definition size_ok (n : Z) : Prop := 0 <= n < DATA_PUT_BIT.




(** A call is reported to have failed with [e] when the host printed [e]
    for the calling core during the call. *)
Definition signalled (s s' : state) (e : ebsp_error) : Prop :=
  host_out s' = host_out s ++ [(pid (coredata s) + 1, e)].

Definition is_overflow (e : ebsp_error) : bool :=
  match e with
  | err_get_overflow | err_put_overflow | err_put_overflow2 | err_send_overflow => true
  | _ => false
  end.

(** The protocol state is what the runtime keeps about pending work. *)
Definition protocol_unchanged (s s' : state) : Prop :=
  coredata s' = coredata s /\
  buffer_size (comm_buf s') = buffer_size (comm_buf s) /\
  data_requests (comm_buf s') = data_requests (comm_buf s) /\
  message_queue (comm_buf s') = message_queue (comm_buf s) /\
  bsp_var_list (comm_buf s') = bsp_var_list (comm_buf s) /\
  bsp_var_counter (comm_buf s') = bsp_var_counter (comm_buf s) /\
  mem s' = mem s.

(** What a call may do to the host's output: leave it alone, or add one
    message, in which case an overflow message comes with the protocol
    state untouched. *)
Definition quiet_or_failed (s s' : state) : Prop :=
  host_out s' = host_out s \/
  exists e, signalled s s' e /\ (is_overflow e = true -> protocol_unchanged s s').


(** *** The steps of one core, seen from that core

    [local_step reqs arrived2] relates the core's data and program point
    before a step to the requests it applies and its data and program
    point after; [reqs] is the core's row of the request table and
    [arrived2] tells whether every core has arrived at the second
    barrier. *)
Inductive local_step (reqs : Z -> ebsp_data_request) (arrived2 : bool) :
  ebsp_core_data -> sync_pc -> list ebsp_data_request ->
  ebsp_core_data -> sync_pc -> Prop :=
| LEnter cd :
    local_step reqs arrived2 cd PcRunning [] cd PcBarrier1
| LBarrier1 cd :
    local_step reqs arrived2 cd PcBarrier1 [] cd (PcGets 0)
| LGet cd i :
    i < request_counter cd -> is_put_request (reqs i) = false ->
    local_step reqs arrived2 cd (PcGets i) [reqs i] cd (PcGets (i + 1))
| LGetSkip cd i :
    i < request_counter cd -> is_put_request (reqs i) = true ->
    local_step reqs arrived2 cd (PcGets i) [] cd (PcGets (i + 1))
| LGetsEnd cd i :
    request_counter cd <= i ->
    local_step reqs arrived2 cd (PcGets i) [] cd PcBarrier2
| LBarrier2 cd :
    arrived2 = true ->
    local_step reqs arrived2 cd PcBarrier2 [] cd (PcPuts 0)
| LPut cd i :
    i < request_counter cd -> is_put_request (reqs i) = true ->
    local_step reqs arrived2 cd (PcPuts i) [reqs i] cd (PcPuts (i + 1))
| LPutSkip cd i :
    i < request_counter cd -> is_put_request (reqs i) = false ->
    local_step reqs arrived2 cd (PcPuts i) [] cd (PcPuts (i + 1))
| LPutsEnd cd i :
    request_counter cd <= i ->
    local_step reqs arrived2 cd (PcPuts i) [] (sync_tail_core cd) PcBarrier3
| LBarrier3 cd :
    local_step reqs arrived2 cd PcBarrier3 [] cd PcDone.

(** The requests of one kind among the first [i] entries of a core's row
    of the request table. *)
Definition phase_done (puts : bool) (i : Z) (cd : ebsp_core_data)
    (cb : ebsp_comm_buf) : list ebsp_data_request :=
  filter (fun r => Bool.eqb (is_put_request r) puts)
    (map (fun n => data_requests cb (pid cd) (Z.of_nat n)) (seq 0 (Z.to_nat i))).

(** The copies a core has performed when it is at a program point, given
    the data and request table it entered [bsp_sync] with. *)
Definition expected_events (cd0 : ebsp_core_data) (cb0 : ebsp_comm_buf)
    (pc : sync_pc) : list ebsp_data_request :=
  let rc := request_counter cd0 in
  match pc with
  | PcRunning | PcBarrier1 => []
  | PcGets i => phase_done false i cd0 cb0
  | PcBarrier2 => phase_done false rc cd0 cb0
  | PcPuts i => phase_done false rc cd0 cb0 ++ phase_done true i cd0 cb0
  | PcBarrier3 | PcDone => phase_done false rc cd0 cb0 ++ phase_done true rc cd0 cb0
  end.

Definition loop_index_ok (cd0 : ebsp_core_data) (pc : sync_pc) : Prop :=
  match pc with
  | PcGets i | PcPuts i => 0 <= i <= Z.max 0 (request_counter cd0)
  | _ => True
  end.

(** What is known of core [k] after the copies [tr], when it entered with
    [cd0] and the shared buffer was [cb0]. *)
Definition core_inv (cb0 : ebsp_comm_buf) (tr : list sync_event) (k : nat)
    (cd0 : ebsp_core_data) (c : ebsp_core_data * sync_pc) : Prop :=
  events_of k tr = expected_events cd0 cb0 (snd c) /\
  ((pc_rank (snd c) <= 4)%nat -> fst c = cd0) /\
  loop_index_ok cd0 (snd c).

Definition some_in_puts (mc : machine) : bool :=
  existsb (fun c => Nat.leb 4 (pc_rank (snd c))) (cores mc).

Record sync_inv (mc0 mc : machine) (tr : list sync_event) : Prop := mk_sync_inv {
  inv_length : length (cores mc) = length (cores mc0);
  inv_requests : data_requests (shared mc) = data_requests (shared mc0);
  inv_ram : ram mc = replay tr (ram mc0);
  inv_cores : forall k c,
      nth_error (cores mc) k = Some c ->
      exists cd0, nth_error (cores mc0) k = Some (cd0, PcRunning) /\
                  core_inv (shared mc0) tr k cd0 c;
  inv_phase : some_in_puts mc = true -> all_arrived 3 mc = true;
  inv_order : exists gs ps,
      tr = gs ++ ps /\
      Forall (fun e => ev_is_put e = false) gs /\
      Forall (fun e => ev_is_put e = true) ps /\
      (ps <> [] -> some_in_puts mc = true)
}.

(** The number of steps a core has left to take before it has returned
    from [bsp_sync]. *)
Definition steps_left (c : ebsp_core_data * sync_pc) : nat :=
  let rc := request_counter (fst c) in
  match snd c with
  | PcRunning => 2 * Z.to_nat rc + 6
  | PcBarrier1 => 2 * Z.to_nat rc + 5
  | PcGets i => Z.to_nat (rc - i) + Z.to_nat rc + 4
  | PcBarrier2 => Z.to_nat rc + 3
  | PcPuts i => Z.to_nat (rc - i) + 2
  | PcBarrier3 => 1
  | PcDone => 0
  end%nat.

Definition total_steps_left (mc : machine) : nat :=
  fold_right (fun c n => (steps_left c + n)%nat) 0%nat (cores mc).


(** ** A concrete group

    Two cores side by side on a board whose group origin is core (32, 8);
    the capacities are example values. A local address is below 1 MiB and
    is made global by placing the core id in the upper twelve bits. *)
Definition example_platform : platform :=
  mk_platform 64 128 32768 256 4 0x8f001000
    (fun row col a =>
       if a <? 2 ^ 20 then ((32 + row) * 64 + (8 + col)) * 2 ^ 20 + a else a).

Definition example_comm_buf : ebsp_comm_buf :=
  mk_comm_buf (fun _ _ => mk_data_request 0 0 0) 0
    (fun _ => mk_message_queue 0 (fun _ => mk_message_header 0 0 0 0))
    (fun _ _ => 0) 0 None 0 2 1.

Definition core0 : ebsp_core_data := bsp_begin example_platform 0 0 example_comm_buf.
Definition core1 : ebsp_core_data := bsp_begin example_platform 0 1 example_comm_buf.

(** Memory holding the payload bytes 7, 8, 9 at [0x100] and the tag bytes
    65, 66 at [0x200]. *)
Definition example_mem : memory :=
  fun a => if a =? 0x100 then 7 else if a =? 0x101 then 8
           else if a =? 0x102 then 9
           else if a =? 0x200 then 65 else if a =? 0x201 then 66 else 0.

Definition example_system : system :=
  mk_system [core0; core1] example_comm_buf example_mem [].

(** Every core of the group runs [bsp_sync], one core after the other;
    for the superstep boundaries below at which no request is pending, so
    that the order in which the cores run it does not matter. *)
Definition sync_all (sys : system) : system :=
  fold_left (fun sy k => on_core k bsp_sync sy) (seq 0 (length (sys_cores sys))) sys.

Definition core_view (k : nat) (sys : system) : state :=
  view (nth k (sys_cores sys) core0) sys.

(** Core 0 registers [0x4000] and core 1 registers [0x5000] in the first
    superstep. *)
Definition once_registered : system :=
  sync_all
    (run_calls example_platform
       [(0%nat, call_push_reg 0x4000 4); (1%nat, call_push_reg 0x5000 4)]
       example_system).

(** Core 0 registers the same variable [0x4000] in two consecutive
    supersteps while core 1 registers [0x5000] and then [0x6000]. *)
Definition twice_registered : system :=
  sync_all
    (run_calls example_platform
       [(0%nat, call_push_reg 0x4000 4); (1%nat, call_push_reg 0x6000 4)]
       (sync_all
          (run_calls example_platform
             [(0%nat, call_push_reg 0x4000 4); (1%nat, call_push_reg 0x5000 4)]
             example_system))).

(** Core 0 sends the two bytes at [0x100] to core 1 in the first
    superstep. *)
Definition after_send : system :=
  run_calls example_platform [(0%nat, call_send 1 0x200 0x100 2)] example_system.

(** Core 0 then sends the byte at [0x102], tagged with the byte at
    [0x201], to core 1 in the same superstep. *)
Definition after_two_sends : system :=
  run_calls example_platform [(0%nat, call_send 1 0x201 0x102 1)] after_send.

(** The machine in which every core of a system is about to call
    [bsp_sync]. *)
Definition machine_of (sys : system) : machine :=
  mk_machine (map (fun cd => (cd, PcRunning)) (sys_cores sys))
             (sys_comm sys) (sys_mem sys).

(** Both variables are registered and core 1's variable holds the byte 5.
    Core 0 first puts the byte 7 into core 1's variable and then gets that
    variable into [0x700]; core 1 gets core 0's variable into [0x800]. *)
Definition exchange_start : system :=
  mk_system (sys_cores once_registered) (sys_comm once_registered)
            (upd (sys_mem once_registered) 0x80905000 5)
            (sys_out once_registered).

Definition exchange_calls : list (nat * bsp_call) :=
  [(0%nat, call_put 1 0x100 0x4000 0 1);
   (0%nat, call_get 1 0x4000 0 0x700 1);
   (1%nat, call_get 0 0x5000 0 0x800 1)].

Definition exchange : system :=
  run_calls example_platform exchange_calls exchange_start.

Definition exchange_schedule : list nat :=
  [0; 1; 0; 1; 0; 1; 0; 1; 0; 1; 0; 0; 0; 1; 0; 1; 1; 0]%nat.

Definition exchange_result : list sync_event * machine :=
  match run exchange_schedule (machine_of exchange) with
  | Some r => r
  | None => ([], machine_of exchange)
  end.

(** ** Further operations and observations *)

Definition bsp_nprocs (s : state) : Z := sint32 (nprocs (coredata s)).

Definition bsp_pid (s : state) : Z := sint32 (pid (coredata s)).

(** A call of the user program or a synchronisation, as one core runs
    them one after the other. *)
Inductive bsp_op : Type :=
| op_call (c : bsp_call)
| op_sync.

Definition exec_op (P : platform) (o : bsp_op) (s : state) : state :=
  match o with
  | op_call c => exec_call P c s
  | op_sync => bsp_sync s
  end.

Definition run_ops (P : platform) (ops : list bsp_op) (s : state) : state :=
  fold_left (fun s o => exec_op P o s) ops s.

(** The messages of queue [q] for core [me] at index [idx] or later, in
    queue order; for a core, those the cursor has not passed. *)
Definition pending_from (q : ebsp_message_queue) (me idx : Z)
  : list ebsp_message_header :=
  filter (fun h => msg_pid h =? me)
    (map (fun n => message q (idx + Z.of_nat n))
         (seq 0 (Z.to_nat (wrap32 (count q) - idx)))).

Definition own_pending (s : state) : list ebsp_message_header :=
  pending_from (active_queue s) (pid (coredata s)) (message_index (coredata s)).

Definition bytes_total (l : list ebsp_message_header) : Z :=
  fold_right (fun h acc => msg_nbytes h + acc) 0 l.


(** The counters of the tables are within the capacities, a core that has
    registered in this superstep found room for it, and the queue index
    names one of the two queues. *)
Definition tables_ok (P : platform) (s : state) : Prop :=
  let cd := coredata s in
  let cb := comm_buf s in
  0 <= request_counter cd <= MAX_DATA_REQUESTS P /\
  0 <= bsp_var_counter cb <= MAX_BSP_VARS P /\
  (var_pushed cd <> 0 -> bsp_var_counter cb < MAX_BSP_VARS P) /\
  (queue_index cd = 0 \/ queue_index cd = 1) /\
  (forall qi, 0 <= count (message_queue cb qi) <= MAX_MESSAGES P).

(** The entries of the three tables that differ between [s] and [s'] are
    entries of the core's own row or column, or of one of the two queues,
    at an index below the capacity. *)
Definition writes_in_bounds (P : platform) (s s' : state) : Prop :=
  let me := pid (coredata s) in
  pid (coredata s') = me /\
  (forall q j,
      q <> me \/ ~ (0 <= j < MAX_DATA_REQUESTS P) ->
      data_requests (comm_buf s') q j = data_requests (comm_buf s) q j) /\
  (forall slot q,
      q <> me \/ ~ (0 <= slot < MAX_BSP_VARS P) ->
      bsp_var_list (comm_buf s') slot q = bsp_var_list (comm_buf s) slot q) /\
  (forall qi j,
      ~ (0 <= qi <= 1) \/ ~ (0 <= j < MAX_MESSAGES P) ->
      message (message_queue (comm_buf s') qi) j
        = message (message_queue (comm_buf s) qi) j).

(** Core 0 sends two bytes to core 1, then one byte to itself, then one
    byte to core 1, all in the first superstep. *)
Definition after_mixed_sends : system :=
  run_calls example_platform
    [(0%nat, call_send 1 0x200 0x100 2);
     (0%nat, call_send 0 0x200 0x102 1);
     (0%nat, call_send 1 0x201 0x101 1)]
    example_system.

(** What a core holds while the group synchronises, given the data
    [cd0] it entered [bsp_sync] with: [cd0] up to the end of its second
    request loop, and [sync_tail_core cd0] from then on. *)
Definition core_data_at (cd0 : ebsp_core_data) (c : ebsp_core_data * sync_pc) : Prop :=
  fst c = if Nat.leb 5 (pc_rank (snd c)) then sync_tail_core cd0 else cd0.

(** The tag size the calls [cs] of a superstep leave requested, [d]
    being the one requested before them. *)
Definition requested_tagsize (cs : list bsp_call) (d : Z) : Z :=
  fold_left (fun d c => match c with
                        | call_set_tagsize tag_bytes => wrap32 tag_bytes
                        | _ => d
                        end) cs d.

(** The cores call [bsp_sync] again with the data, shared buffer and
    memory a synchronisation has left, nothing being issued in between. *)
Definition reenter (mc : machine) : machine :=
  mk_machine (map (fun c => (fst c, PcRunning)) (cores mc)) (shared mc) (ram mc).

(** * Properties *)

(** ** Machine integers *)

Lemma wrap32_small (z : Z) : 0 <= z < 2 ^ 32 -> wrap32 z = z.
Proof. intros H. unfold wrap32. now apply Z.mod_small. Qed.

Lemma wrap32_range (z : Z) : 0 <= wrap32 z < 2 ^ 32.
Proof. unfold wrap32. apply Z.mod_pos_bound. lia. Qed.

Lemma wrap32_minus_one : wrap32 (-1) = 2 ^ 32 - 1.
Proof. reflexivity. Qed.

Lemma DATA_PUT_BIT_value : DATA_PUT_BIT = 2 ^ 31.
Proof. reflexivity. Qed.

(** ** Registration *)

(** C10: the outcome of [bsp_push_reg] does not depend on its [nbytes]
    argument: from the same state and with the same variable address, two
    calls with different sizes produce the same state, hence the same
    registration table, the same diagnostics and the same [var_pushed]
    flag. *)
Theorem bsp_push_reg_ignores_nbytes :
  forall (P : platform) (variable n1 n2 : Z) (s : state),
    bsp_push_reg P variable n1 s = bsp_push_reg P variable n2 s.
Proof. intros. unfold bsp_push_reg. reflexivity. Qed.

Lemma upd2_same {A : Type} (a : Z -> Z -> A) (i j : Z) (v : A) :
  upd2 a i j v i j = v.
Proof. unfold upd2, upd. now rewrite !Z.eqb_refl. Qed.

Lemma upd2_other {A : Type} (a : Z -> Z -> A) (i j i' j' : Z) (v : A) :
  i' <> i \/ j' <> j -> upd2 a i j v i' j' = a i' j'.
Proof.
  intros H. unfold upd2, upd.
  destruct (Z.eqb_spec i' i) as [-> | Hi]; [|reflexivity].
  destruct (Z.eqb_spec j' j) as [-> | Hj]; [|reflexivity].
  destruct H; congruence.
Qed.

(** C8: [bsp_push_reg] relays [err_pushreg_multiple] and changes nothing
    else when the core has already registered in this superstep; failing
    that, it relays [err_pushreg_overflow] and changes nothing else when
    the registration counter equals [MAX_BSP_VARS]; otherwise it relays
    nothing, stores the address at [bsp_var_list[bsp_var_counter][pid]],
    leaves every other entry and the counter alone, and sets
    [var_pushed]. *)
Theorem bsp_push_reg_spec :
  forall (P : platform) (variable nbytes : Z) (s : state),
    (var_pushed (coredata s) <> 0 ->
     bsp_push_reg P variable nbytes s = ebsp_message err_pushreg_multiple s) /\
    (var_pushed (coredata s) = 0 ->
     bsp_var_counter (comm_buf s) = MAX_BSP_VARS P ->
     bsp_push_reg P variable nbytes s = ebsp_message err_pushreg_overflow s) /\
    (var_pushed (coredata s) = 0 ->
     bsp_var_counter (comm_buf s) <> MAX_BSP_VARS P ->
     let s' := bsp_push_reg P variable nbytes s in
     bsp_var_list (comm_buf s') (bsp_var_counter (comm_buf s)) (pid (coredata s))
       = variable /\
     (forall slot p,
        slot <> bsp_var_counter (comm_buf s) \/ p <> pid (coredata s) ->
        bsp_var_list (comm_buf s') slot p = bsp_var_list (comm_buf s) slot p) /\
     var_pushed (coredata s') = 1 /\
     bsp_var_counter (comm_buf s') = bsp_var_counter (comm_buf s) /\
     host_out s' = host_out s).
Proof.
  intros P variable nbytes s. unfold bsp_push_reg.
  split; [|split].
  - intros Hp. apply Z.eqb_neq in Hp. now rewrite Hp.
  - intros Hp Hc. apply Z.eqb_eq in Hp, Hc. now rewrite Hp, Hc.
  - intros Hp Hc. apply Z.eqb_eq in Hp. apply Z.eqb_neq in Hc.
    rewrite Hp, Hc. cbn. repeat split.
    + apply upd2_same.
    + intros slot p Hne. now apply upd2_other.
Qed.

(** Checking a property on every index below a bound by evaluation. *)
Lemma forallb_below (f : Z -> bool) (n : nat) :
  forallb f (map Z.of_nat (seq 0 n)) = true ->
  forall j, 0 <= j < Z.of_nat n -> f j = true.
Proof.
  intros H j Hj. rewrite forallb_forall in H. apply H.
  apply in_map_iff. exists (Z.to_nat j). split; [lia|].
  apply in_seq. lia.
Qed.

Lemma bsp_push_reg_spec_witness :
  let pushed := core_view 0 (run_calls example_platform
                               [(0%nat, call_push_reg 0x4000 4)] example_system) in
  let full := with_comm_buf (set_bsp_var_counter 64 example_comm_buf)
                (core_view 0 example_system) in
  let fresh := core_view 0 example_system in
  bsp_push_reg example_platform 0x4100 4 pushed
    = ebsp_message err_pushreg_multiple pushed /\
  bsp_push_reg example_platform 0x4000 4 full
    = ebsp_message err_pushreg_overflow full /\
  bsp_var_list (comm_buf (bsp_push_reg example_platform 0x4000 4 fresh)) 0 0 = 0x4000.
Proof.
  intros pushed full fresh. split; [|split].
  - apply (proj1 (bsp_push_reg_spec example_platform 0x4100 4 pushed)).
    vm_compute. discriminate.
  - apply (proj1 (proj2 (bsp_push_reg_spec example_platform 0x4000 4 full)));
      reflexivity.
  - apply (proj2 (proj2 (bsp_push_reg_spec example_platform 0x4000 4 fresh)));
      [reflexivity | vm_compute; discriminate].
Defined.

(** ** Address resolution *)

Lemma find_slot_first (n : nat) :
  forall (start : Z) (column : Z -> Z) (addr k : Z),
    start <= k < start + Z.of_nat n ->
    column k = addr ->
    (forall j, start <= j < k -> column j <> addr) ->
    find_slot n start column addr = Some k.
Proof.
  induction n as [|n IH]; intros start column addr k Hk Heq Hfirst.
  - lia.
  - cbn [find_slot]. destruct (Z.eqb_spec (column start) addr) as [Hs | Hs].
    + destruct (Z.eq_dec start k) as [-> | Hne]; [reflexivity|].
      exfalso. apply (Hfirst start); [lia | exact Hs].
    + apply IH; trivial.
      * assert (start <> k) by congruence. lia.
      * intros j Hj. apply Hfirst. lia.
Qed.

Lemma find_slot_none (n : nat) :
  forall (start : Z) (column : Z -> Z) (addr : Z),
    (forall j, start <= j < start + Z.of_nat n -> column j <> addr) ->
    find_slot n start column addr = None.
Proof.
  induction n as [|n IH]; intros start column addr Hnone; [reflexivity|].
  cbn [find_slot]. destruct (Z.eqb_spec (column start) addr) as [Hs | Hs].
  - exfalso. apply (Hnone start); [lia | exact Hs].
  - apply IH. intros j Hj. apply Hnone. lia.
Qed.

Lemma get_remote_addr_found (P : platform) (p addr offset k : Z) (s : state) :
  0 <= k < MAX_BSP_VARS P ->
  own_column s k = addr ->
  (forall j, 0 <= j < k -> own_column s j <> addr) ->
  _get_remote_addr P p addr offset s =
    (e_get_global_address P (row_from_pid P p) (col_from_pid P p)
       (wrap32 (bsp_var_list (comm_buf s) k p + offset)), s).
Proof.
  intros Hk Heq Hfirst. unfold _get_remote_addr.
  rewrite (find_slot_first _ 0 (own_column s) addr k); trivial. lia.
Qed.

Lemma get_remote_addr_not_found (P : platform) (p addr offset : Z) (s : state) :
  (forall j, 0 <= j < MAX_BSP_VARS P -> own_column s j <> addr) ->
  _get_remote_addr P p addr offset s = (0, ebsp_message (err_var_not_found p addr) s).
Proof.
  intros Hnone. unfold _get_remote_addr.
  rewrite find_slot_none; trivial. intros j Hj. apply Hnone. lia.
Qed.

(** C2, as the code has it: when cores A and B hold [a] and [b] in the
    same slot [k] of the registration table and [k] is the lowest slot of
    A's column holding [a], resolving ([pid] of B, [a], [offset]) on A
    gives the translation of [b + offset] for B's grid position and relays
    nothing; the same holds from B when [k] is the lowest slot of B's
    column holding [b]. When no slot of the caller's column holds the
    address, the call relays [err_var_not_found] with the pid and the
    address and returns the null pointer. *)
Theorem get_remote_addr_pairing :
  forall (P : platform) (cb : ebsp_comm_buf) (cdA cdB : ebsp_core_data)
         (m : memory) (out : list (Z * ebsp_error)) (k a b offset : Z),
    0 <= k < MAX_BSP_VARS P ->
    bsp_var_list cb k (pid cdA) = a ->
    bsp_var_list cb k (pid cdB) = b ->
    let sA := mk_state cdA cb m out in
    let sB := mk_state cdB cb m out in
    ((forall j, 0 <= j < k -> bsp_var_list cb j (pid cdA) <> a) ->
     _get_remote_addr P (pid cdB) a offset sA =
       (e_get_global_address P (row_from_pid P (pid cdB)) (col_from_pid P (pid cdB))
          (wrap32 (b + offset)), sA)) /\
    ((forall j, 0 <= j < k -> bsp_var_list cb j (pid cdB) <> b) ->
     _get_remote_addr P (pid cdA) b offset sB =
       (e_get_global_address P (row_from_pid P (pid cdA)) (col_from_pid P (pid cdA))
          (wrap32 (a + offset)), sB)) /\
    (forall p addr,
       (forall j, 0 <= j < MAX_BSP_VARS P -> bsp_var_list cb j (pid cdA) <> addr) ->
       _get_remote_addr P p addr offset sA
         = (0, ebsp_message (err_var_not_found p addr) sA)).
Proof.
  intros P cb cdA cdB m out k a b offset Hk Ha Hb sA sB.
  split; [|split].
  - intros Hfirst. subst b.
    apply (get_remote_addr_found P (pid cdB) a offset k sA); trivial.
  - intros Hfirst. subst a.
    apply (get_remote_addr_found P (pid cdA) b offset k sB); trivial.
  - intros p addr Hnone. now apply get_remote_addr_not_found.
Qed.

Lemma get_remote_addr_pairing_witness :
  let sys := sync_all (run_calls example_platform
                         [(0%nat, call_push_reg 0x4000 4);
                          (1%nat, call_push_reg 0x5000 4)] example_system) in
  let sA := mk_state core0 (sys_comm sys) (sys_mem sys) (sys_out sys) in
  let sB := mk_state core1 (sys_comm sys) (sys_mem sys) (sys_out sys) in
  fst (_get_remote_addr example_platform (pid core1) 0x4000 8 sA) = 0x80905008 /\
  fst (_get_remote_addr example_platform (pid core0) 0x5000 8 sB) = 0x80804008 /\
  _get_remote_addr example_platform 1 0x7000 8 sA
    = (0, ebsp_message (err_var_not_found 1 0x7000) sA).
Proof.
  intros sys sA sB.
  pose proof (get_remote_addr_pairing example_platform (sys_comm sys) core0 core1
                (sys_mem sys) (sys_out sys) 0 0x4000 0x5000 8) as H.
  destruct H as (HA & HB & Hnone); [vm_compute; split; congruence | reflexivity | reflexivity |].
  split; [|split].
  - unfold sA. rewrite HA by lia. reflexivity.
  - unfold sB. rewrite HB by lia. reflexivity.
  - apply Hnone. intros j Hj.
    pose proof (forallb_below
                  (fun j => negb (bsp_var_list (sys_comm sys) j (pid core0) =? 0x7000))
                  64 eq_refl j Hj) as Hf.
    cbv beta in Hf. apply negb_true_iff in Hf. now apply Z.eqb_neq in Hf.
Defined.

(** C2 as stated fails when a core has registered the same address
    twice: core 0 holds [0x4000] in slots 0 and 1, core 1 holds [0x5000]
    and [0x6000]; for the second registration the pairing is
    ([0x4000], [0x6000]), yet resolving [0x4000] on core 0 gives the
    translation of [0x5000], the entry of the first slot that matches. *)
Lemma resolve_duplicate_registration :
  bsp_var_list (sys_comm twice_registered) 1 (pid core0) = 0x4000 /\
  bsp_var_list (sys_comm twice_registered) 1 (pid core1) = 0x6000 /\
  fst (_get_remote_addr example_platform (pid core1) 0x4000 0
         (core_view 0 twice_registered))
    = e_get_global_address example_platform
        (row_from_pid example_platform (pid core1))
        (col_from_pid example_platform (pid core1)) (wrap32 (0x5000 + 0)) /\
  fst (_get_remote_addr example_platform (pid core1) 0x4000 0
         (core_view 0 twice_registered))
    <> e_get_global_address example_platform
         (row_from_pid example_platform (pid core1))
         (col_from_pid example_platform (pid core1)) (wrap32 (0x6000 + 0)).
Proof. vm_compute. repeat split; congruence. Qed.

(** ** The message cursor *)

Lemma next_from_finds (fuel : nat) :
  forall (q : ebsp_message_queue) (me idx j : Z),
    0 <= idx <= j ->
    j < count q < 2 ^ 32 ->
    (Z.to_nat (j - idx) < fuel)%nat ->
    msg_pid (message q j) = me ->
    (forall i, idx <= i < j -> msg_pid (message q i) <> me) ->
    next_from fuel q me idx = (Some (message q j), j).
Proof.
  induction fuel as [|fuel IH]; intros q me idx j Hidx Hj Hfuel Hme Hskip; [lia|].
  cbn [next_from]. rewrite (wrap32_small (count q)) by lia.
  destruct (Z.ltb_spec idx (count q)) as [_ | Hge]; [|lia].
  destruct (Z.eqb_spec (msg_pid (message q idx)) me) as [Hhit | Hmiss]; cbn [negb].
  - destruct (Z.eq_dec idx j) as [-> | Hne]; [reflexivity|].
    exfalso. apply (Hskip idx); [lia | exact Hhit].
  - assert (idx <> j) by congruence.
    rewrite (wrap32_small (idx + 1)) by lia.
    apply IH; trivial; try lia.
    intros i Hi. apply Hskip. lia.
Qed.

Lemma memcpy_inside (dst src n : Z) (m : memory) (i : Z) :
  0 <= i < n -> memcpy dst src n m (dst + i) = m (src + i).
Proof.
  intros Hi. unfold memcpy.
  destruct (Z.leb_spec dst (dst + i)); [|lia].
  destruct (Z.ltb_spec (dst + i) (dst + n)); [|lia].
  cbn. f_equal. lia.
Qed.

Lemma memcpy_outside (dst src n : Z) (m : memory) (a : Z) :
  ~ (dst <= a < dst + n) -> memcpy dst src n m a = m a.
Proof.
  intros Ha. unfold memcpy.
  destruct (Z.leb_spec dst a); [|reflexivity].
  destruct (Z.ltb_spec a (dst + n)); [lia | reflexivity].
Qed.

(** C9: when the active queue holds, at or after the cursor, a message
    for this core, the first such being at index [j], [bsp_move] with a
    receive buffer of [buffer_size] bytes leaves the cursor at [j + 1];
    the first [min buffer_size nbytes] bytes of the caller's buffer hold
    the first bytes of that message's payload and every other byte of
    memory is as before; the shared buffer is not touched and nothing is
    relayed. With [buffer_size = 0] the minimum is zero: the cursor
    advances and no byte is copied. *)
Theorem bsp_move_spec :
  forall (payload buffer_size : Z) (s : state) (j : Z),
    let q := active_queue s in
    let cd := coredata s in
    0 <= message_index cd <= j ->
    j < count q < 2 ^ 32 ->
    msg_pid (message q j) = pid cd ->
    (forall i, message_index cd <= i < j -> msg_pid (message q i) <> pid cd) ->
    0 <= buffer_size < 2 ^ 31 ->
    0 <= msg_nbytes (message q j) ->
    let s' := bsp_move payload buffer_size s in
    let n := Z.min buffer_size (msg_nbytes (message q j)) in
    message_index (coredata s') = j + 1 /\
    (forall i, 0 <= i < n ->
               mem s' (payload + i) = mem s (msg_payload (message q j) + i)) /\
    (forall a, ~ (payload <= a < payload + n) -> mem s' a = mem s a) /\
    comm_buf s' = comm_buf s /\
    host_out s' = host_out s.
Proof.
  intros payload buffer_size s j q cd Hidx Hj Hme Hskip Hbuf Hnb s' n.
  assert (Hnext : _next_queue_message s =
                  (Some (message q j), with_coredata (set_message_index j cd) s)).
  { unfold _next_queue_message. fold cd. fold q.
    rewrite (next_from_finds (remaining s) q (pid cd) (message_index cd) j); trivial.
    unfold remaining. fold q. fold cd. rewrite wrap32_small by lia. lia. }
  subst s'. unfold bsp_move. rewrite Hnext.
  assert (Hwrap : wrap32 (j + 1) = j + 1) by (apply wrap32_small; lia).
  destruct (Z.eqb_spec buffer_size 0) as [Hz | Hnz].
  - assert (n = 0) by (subst n; lia).
    cbn. rewrite Hwrap. repeat split; trivial. intros i Hi. lia.
  - assert (Hn : wrap32 (if msg_nbytes (message q j) <? buffer_size
                         then msg_nbytes (message q j) else buffer_size) = n).
    { subst n. destruct (Z.ltb_spec (msg_nbytes (message q j)) buffer_size).
      - rewrite Z.min_r by lia. apply wrap32_small. lia.
      - rewrite Z.min_l by lia. apply wrap32_small. lia. }
    cbn. rewrite Hwrap, Hn. repeat split; trivial.
    + intros i Hi. now apply memcpy_inside.
    + intros a Ha. now apply memcpy_outside.
Qed.

(** The scenario of the spec, with the message in the queue the receiver
    scans: a 2-byte message moved into a 1-byte buffer at [0x300]. *)
Lemma bsp_move_spec_witness :
  let s := core_view 1 after_send in
  let s' := bsp_move 0x300 1 s in
  message_index (coredata s') = 1 /\
  mem s' 0x300 = 7 /\
  mem s' 0x301 = mem s 0x301.
Proof.
  intros s s'.
  pose proof (bsp_move_spec 0x300 1 s 0) as H. cbv zeta in H.
  assert (Hskip : forall i, message_index (coredata s) <= i < 0 ->
                            msg_pid (message (active_queue s) i) <> pid (coredata s)).
  { intros i Hi. change (message_index (coredata s)) with 0 in Hi. lia. }
  specialize (H ltac:(vm_compute; intuition congruence)
                ltac:(vm_compute; intuition congruence)
                eq_refl Hskip
                ltac:(vm_compute; intuition congruence)
                ltac:(vm_compute; intuition congruence)).
  destruct H as (Hc & Hin & Hout & _).
  split; [exact Hc | split].
  - assert (H0 : 0 <= 0 < Z.min 1 (msg_nbytes (message (active_queue s) 0)))
      by (vm_compute; intuition congruence).
    exact (eq_trans (Hin 0 H0) eq_refl).
  - apply Hout. vm_compute. intuition congruence.
Defined.

Lemma qsize_loop_cursor (fuel : nat) :
  forall (q : ebsp_message_queue) (me idx pp acc : Z),
    0 <= idx <= count q ->
    count q < 2 ^ 32 ->
    fuel = Z.to_nat (count q - idx) ->
    fst (fst (qsize_loop fuel q me idx pp acc)) = count q.
Proof.
  induction fuel as [|fuel IH]; intros q me idx pp acc Hidx Hc Hfuel.
  - cbn. lia.
  - cbn [qsize_loop]. rewrite (wrap32_small (count q)) by lia.
    destruct (Z.ltb_spec idx (count q)) as [Hlt | Hge]; [|lia].
    rewrite (wrap32_small (idx + 1)) by lia.
    destruct (negb (msg_pid (message q idx) =? me)); apply IH; lia.
Qed.

(** [bsp_qsize] leaves the cursor at the end of the active queue. *)
Lemma bsp_qsize_consumes_cursor (s : state) :
  0 <= message_index (coredata s) <= count (active_queue s) ->
  count (active_queue s) < 2 ^ 32 ->
  message_index (coredata (snd (bsp_qsize s))) = count (active_queue s).
Proof.
  intros Hidx Hc. unfold bsp_qsize.
  pose proof (qsize_loop_cursor (remaining s) (active_queue s) (pid (coredata s))
                (message_index (coredata s)) 0 0 Hidx Hc) as H.
  destruct (qsize_loop (remaining s) (active_queue s) (pid (coredata s))
              (message_index (coredata s)) 0 0) as [[idx pp] acc].
  cbn in *. apply H. unfold remaining. rewrite wrap32_small by lia. reflexivity.
Qed.

(** [bsp_qsize] never reports a message. *)
Lemma bsp_qsize_packets_zero (s : state) : fst (fst (bsp_qsize s)) = 0.
Proof.
  unfold bsp_qsize.
  destruct (qsize_loop (remaining s) (active_queue s) (pid (coredata s))
              (message_index (coredata s)) 0 0) as [[idx pp] acc].
  reflexivity.
Qed.

(** C4, evaluated: the queue core 1 scans holds exactly one message, for
    core 1, of 2 bytes, and the cursor is at its start. [bsp_qsize]
    reports 0 messages and 2 bytes, where the claim has 1 message and 2
    bytes; it leaves the cursor past the message, so that a tag peek that
    succeeds before the query (status 2) finds nothing after it (status
    -1), where the claim has the cursor not consumed. *)
Theorem bsp_qsize_one_message :
  let s := core_view 1 after_send in
  count (active_queue s) = 1 /\
  msg_pid (message (active_queue s) 0) = pid (coredata s) /\
  msg_nbytes (message (active_queue s) 0) = 2 /\
  message_index (coredata s) = 0 /\
  fst (bsp_qsize s) = (0, 2) /\
  fst (bsp_get_tag 0x300 s) = 2 /\
  message_index (coredata (snd (bsp_qsize s))) = 1 /\
  fst (bsp_get_tag 0x300 (snd (bsp_qsize s))) = -1.
Proof. vm_compute. repeat split; reflexivity. Qed.

(** ** Sending *)

(** An admitted [bsp_send] takes slot [count] of the active queue and
    advances the watermark by [nbytes]. *)
Lemma bsp_send_admitted (P : platform) (p tag payload nbytes : Z) (s : state) :
  let cd := coredata s in
  let q := active_queue s in
  let bs := buffer_size (comm_buf s) in
  wrap32 (bs + tag_size cd + nbytes) <= MAX_PAYLOAD_SIZE P ->
  0 <= count q < MAX_MESSAGES P ->
  MAX_MESSAGES P < 2 ^ 32 ->
  let s' := bsp_send P p tag payload nbytes s in
  buffer_size (comm_buf s') = wrap32 (bs + nbytes) /\
  count (active_queue s') = wrap32 (count q + 1) /\
  message (active_queue s') (count q)
    = mk_message_header p (payload_buf P + bs)
        (payload_buf P + wrap32 (bs + tag_size cd)) nbytes /\
  host_out s' = host_out s.
Proof.
  intros cd q bs Hpool Hcount Hmax s'. subst s'. unfold bsp_send.
  fold cd. change (message_queue (comm_buf s) (queue_index cd)) with q.
  fold bs.
  destruct (Z.ltb_spec (MAX_PAYLOAD_SIZE P) (wrap32 (bs + tag_size cd + nbytes)));
    [lia|].
  destruct (Z.leb_spec (MAX_MESSAGES P) (count q)); [lia|].
  cbn [orb]. rewrite wrap32_minus_one.
  destruct (Z.eqb_spec (count q) (2 ^ 32 - 1)); [lia|].
  unfold active_queue. cbn. unfold upd. rewrite !Z.eqb_refl. cbn.
  rewrite Z.eqb_refl. repeat split; reflexivity.
Qed.

(** C5, evaluated: with a tag size of 1, core 0 sends a 2-byte payload
    and then a 1-byte payload. The first send is admitted and writes its
    tag at offset 0 and its payload at offsets 1 and 2 of the pool, yet it
    leaves the watermark at 2, where the claim has 1 + 2 = 3. The second
    send is therefore given offset 2 for its tag, inside the payload of
    the first message, and overwrites its second byte (8) by the tag
    byte (66). *)
Theorem bsp_send_reserves_payload_only :
  let s0 := core_view 0 example_system in
  let s1 := core_view 0 after_send in
  let s2 := core_view 0 after_two_sends in
  let first := message (active_queue s2) 0 in
  let second := message (active_queue s2) 1 in
  tag_size (coredata s0) = 1 /\
  buffer_size (comm_buf s0) = 0 /\
  host_out s2 = [] /\
  buffer_size (comm_buf s1) = 2 /\
  msg_tag first = payload_buf example_platform + 0 /\
  msg_payload first = payload_buf example_platform + 1 /\
  msg_nbytes first = 2 /\
  msg_tag second = payload_buf example_platform + 2 /\
  mem s1 (msg_payload first + 1) = 8 /\
  mem s2 (msg_payload first + 1) = 66.
Proof. vm_compute. repeat split; reflexivity. Qed.

(** ** Rotation of the queues *)

Lemma bsp_sync_keeps_queues (s : state) :
  message_queue (comm_buf (bsp_sync s)) = message_queue (comm_buf s).
Proof.
  unfold bsp_sync, sync_tail_shared. cbn.
  destruct (negb (var_pushed (coredata s) =? 0) && (pid (coredata s) =? 0));
    reflexivity.
Qed.

Lemma bsp_sync_rotates (s : state) :
  queue_index (coredata s) = 0 \/ queue_index (coredata s) = 1 ->
  queue_index (coredata (bsp_sync s)) = 1 - queue_index (coredata s).
Proof.
  intros [H | H]; unfold bsp_sync, sync_tail_core; cbn;
    destruct (negb (var_pushed (coredata s) =? 0)); cbn; rewrite H; reflexivity.
Qed.

Lemma bsp_send_coredata (P : platform) (p tag payload nbytes : Z) (s : state) :
  coredata (bsp_send P p tag payload nbytes s) = coredata s.
Proof.
  unfold bsp_send.
  repeat match goal with
         | |- context [if ?b then _ else _] => destruct b
         end; reflexivity.
Qed.

(** A message is found by its addressee as soon as it is sent: sender
    and reader use the same queue of the pair within a superstep. *)
Lemma bsp_send_found_at_once (P : platform) (p tag payload nbytes : Z) (s : state)
    (reader : ebsp_core_data) :
  let cd := coredata s in
  let q := active_queue s in
  let bs := buffer_size (comm_buf s) in
  wrap32 (bs + tag_size cd + nbytes) <= MAX_PAYLOAD_SIZE P ->
  0 <= count q < MAX_MESSAGES P ->
  MAX_MESSAGES P < 2 ^ 32 ->
  queue_index reader = queue_index cd ->
  pid reader = p ->
  message_index reader = count q ->
  fst (_next_queue_message (with_coredata reader (bsp_send P p tag payload nbytes s)))
    = Some (mk_message_header p (payload_buf P + bs)
              (payload_buf P + wrap32 (bs + tag_size cd)) nbytes).
Proof.
  intros cd q bs Hpool Hcount Hmax Hqi Hpid Hidx.
  destruct (bsp_send_admitted P p tag payload nbytes s Hpool Hcount Hmax)
    as (_ & Hc & Hm & _).
  fold cd q bs in Hc, Hm.
  set (s' := bsp_send P p tag payload nbytes s) in *.
  assert (Hq : active_queue (with_coredata reader s') = active_queue s').
  { unfold active_queue. cbn. rewrite Hqi. subst s'.
    now rewrite bsp_send_coredata. }
  rewrite wrap32_small in Hc by lia.
  unfold _next_queue_message, remaining. rewrite Hq. cbn [coredata with_coredata].
  rewrite (next_from_finds _ (active_queue s') (pid reader) (message_index reader)
             (count q)).
  - cbn. rewrite Hm. reflexivity.
  - lia.
  - rewrite Hc. lia.
  - rewrite Hc, wrap32_small by lia. lia.
  - rewrite Hm. cbn. congruence.
  - intros i Hi. lia.
Qed.

(** C3, evaluated: core 0 sends a 2-byte message to core 1 in a
    superstep in which both queues start empty. Core 1 finds nothing
    before the send and finds the message (status 2) right after it, in
    the same superstep, where the claim has it invisible; after the next
    synchronisation core 1 finds nothing (status -1, and [bsp_move] copies
    nothing), where the claim has the message visible; after one more
    synchronisation the message is found again, where the claim has it
    unreachable for good. *)
Theorem bsp_send_visibility :
  fst (bsp_get_tag 0x300 (core_view 1 example_system)) = -1 /\
  fst (bsp_get_tag 0x300 (core_view 1 after_send)) = 2 /\
  mem (bsp_move 0x300 2 (core_view 1 after_send)) 0x300 = 7 /\
  fst (bsp_get_tag 0x300 (core_view 1 (sync_all after_send))) = -1 /\
  mem (bsp_move 0x300 2 (core_view 1 (sync_all after_send))) 0x300 = 0 /\
  fst (bsp_get_tag 0x300 (core_view 1 (sync_all (sync_all after_send)))) = 2.
Proof. vm_compute. repeat split; reflexivity. Qed.

(** ** Failed calls *)

Lemma get_remote_addr_cases (P : platform) (p addr offset : Z) (s : state) :
  snd (_get_remote_addr P p addr offset s) = s \/
  _get_remote_addr P p addr offset s = (0, ebsp_message (err_var_not_found p addr) s).
Proof.
  unfold _get_remote_addr.
  destruct (find_slot (Z.to_nat (MAX_BSP_VARS P)) 0 (own_column s) addr);
    [left | right]; reflexivity.
Qed.

(** Case split on an address resolution in the goal: either it succeeds
    with the state unchanged, or it fails with [err_var_not_found]. *)
Ltac split_resolution P p a o s :=
  let Hs := fresh "Hs" in
  let Hnf := fresh "Hnf" in
  let r := fresh "remote" in
  let s1 := fresh "s1" in
  destruct (get_remote_addr_cases P p a o s) as [Hs | Hnf];
  [ destruct (_get_remote_addr P p a o s) as [r s1]; cbn in Hs; subst s1
  | rewrite Hnf ].

Lemma failed_with (e : ebsp_error) (s : state) :
  is_overflow e = true -> quiet_or_failed s (ebsp_message e s).
Proof.
  intros _. right. exists e. split; [reflexivity|].
  intros _. repeat split; reflexivity.
Qed.

Lemma failed_not_overflow (e : ebsp_error) (s : state) :
  is_overflow e = false -> quiet_or_failed s (ebsp_message e s).
Proof.
  intros He. right. exists e. split; [reflexivity|]. congruence.
Qed.

Lemma bsp_put_outcome (P : platform) (p src dst offset nbytes : Z) (s : state) :
  buffer_size (comm_buf s) <> 2 ^ 32 - 1 ->
  quiet_or_failed s (bsp_put P p src dst offset nbytes s).
Proof.
  intros Hbs. unfold bsp_put.
  destruct (MAX_DATA_REQUESTS P <=? request_counter (coredata s));
    [now apply failed_with|].
  destruct (get_remote_addr_cases P p dst offset s) as [Hs | Hnf].
  - destruct (_get_remote_addr P p dst offset s) as [dst_remote s1].
    cbn in Hs. subst s1.
    destruct (dst_remote =? 0); [now left|].
    destruct (MAX_PAYLOAD_SIZE P <? wrap32 (buffer_size (comm_buf s) + nbytes)).
    + rewrite Z.eqb_refl. right. exists err_put_overflow2.
      split; [reflexivity|]. intros _. repeat split; reflexivity.
    + rewrite wrap32_minus_one.
      destruct (Z.eqb_spec (buffer_size (comm_buf s)) (2 ^ 32 - 1)); [contradiction|].
      now left.
  - rewrite Hnf. cbn. now apply failed_not_overflow.
Qed.

Lemma bsp_get_outcome (P : platform) (p src offset dst nbytes : Z) (s : state) :
  quiet_or_failed s (bsp_get P p src offset dst nbytes s).
Proof.
  unfold bsp_get.
  destruct (MAX_DATA_REQUESTS P <=? request_counter (coredata s));
    [now apply failed_with|].
  split_resolution P p src offset s.
  - destruct (_ =? 0); now left.
  - cbn. now apply failed_not_overflow.
Qed.

Lemma bsp_hp_outcome (P : platform) (p addr offset : Z) (f : Z -> memory -> memory)
    (s : state) :
  quiet_or_failed s
    (let '(remote, s1) := _get_remote_addr P p addr offset s in
     if remote =? 0 then s1 else with_mem (f remote (mem s1)) s1).
Proof.
  split_resolution P p addr offset s.
  - destruct (_ =? 0); now left.
  - cbn. now apply failed_not_overflow.
Qed.

Lemma bsp_send_outcome (P : platform) (p tag payload nbytes : Z) (s : state) :
  MAX_MESSAGES P < 2 ^ 32 ->
  quiet_or_failed s (bsp_send P p tag payload nbytes s).
Proof.
  intros Hmax. unfold bsp_send.
  destruct (Z.ltb_spec (MAX_PAYLOAD_SIZE P)
              (wrap32 (buffer_size (comm_buf s) + tag_size (coredata s) + nbytes))).
  - cbn [orb]. rewrite Z.eqb_refl. right. exists err_send_overflow.
    split; [reflexivity|]. intros _. repeat split; reflexivity.
  - cbn [orb].
    destruct (Z.leb_spec (MAX_MESSAGES P)
                (count (message_queue (comm_buf s) (queue_index (coredata s))))).
    + rewrite Z.eqb_refl. right. exists err_send_overflow.
      split; [reflexivity|]. intros _. repeat split; reflexivity.
    + rewrite wrap32_minus_one.
      destruct (Z.eqb_spec
                  (count (message_queue (comm_buf s) (queue_index (coredata s))))
                  (2 ^ 32 - 1)); [lia|].
      now left.
Qed.

Lemma next_queue_message_quiet (s : state) :
  host_out (snd (_next_queue_message s)) = host_out s.
Proof.
  unfold _next_queue_message.
  destruct (next_from (remaining s) (active_queue s) (pid (coredata s))
              (message_index (coredata s))) as [m idx].
  reflexivity.
Qed.

Lemma exec_call_outcome (P : platform) (c : bsp_call) (s : state) :
  MAX_MESSAGES P < 2 ^ 32 ->
  buffer_size (comm_buf s) <> 2 ^ 32 - 1 ->
  quiet_or_failed s (exec_call P c s).
Proof.
  intros Hmax Hbs. destruct c; cbn [exec_call].
  - unfold bsp_push_reg.
    destruct (negb (var_pushed (coredata s) =? 0));
      [now apply failed_not_overflow|].
    destruct (bsp_var_counter (comm_buf s) =? MAX_BSP_VARS P);
      [now apply failed_not_overflow | now left].
  - now apply bsp_put_outcome.
  - apply (bsp_hp_outcome P p dst offset (fun r m => memcpy r src (wrap32 nbytes) m)).
  - apply bsp_get_outcome.
  - apply (bsp_hp_outcome P p src offset (fun r m => memcpy dst r (wrap32 nbytes) m)).
  - now left.
  - now apply bsp_send_outcome.
  - left. unfold bsp_qsize.
    destruct (qsize_loop (remaining s) (active_queue s) (pid (coredata s))
                (message_index (coredata s)) 0 0) as [[idx pp] acc].
    reflexivity.
  - left. unfold bsp_get_tag. pose proof (next_queue_message_quiet s) as H.
    destruct (_next_queue_message s) as [[h|] s1]; exact H.
  - left. unfold bsp_move. pose proof (next_queue_message_quiet s) as H.
    destruct (_next_queue_message s) as [[h|] s1]; cbn in *;
      [destruct (_ =? 0)|]; exact H.
  - left. unfold bsp_hpmove. pose proof (next_queue_message_quiet s) as H.
    destruct (_next_queue_message s) as [[h|] s1]; exact H.
Qed.

Lemma signalled_not_quiet (s s' : state) (e : ebsp_error) :
  signalled s s' e -> host_out s' = host_out s -> False.
Proof.
  unfold signalled. intros H1 H2. rewrite H2 in H1.
  apply (f_equal (@length _)) in H1. rewrite length_app in H1. cbn in H1. lia.
Qed.

Lemma signalled_unique (s s' : state) (e e' : ebsp_error) :
  signalled s s' e -> signalled s s' e' -> e = e'.
Proof.
  unfold signalled. intros H1 H2. rewrite H1 in H2.
  apply app_inv_head in H2. congruence.
Qed.

(** When each overflow message is relayed: the request table has no room,
    or the pool or the queue cannot take the message. *)
Lemma overflow_conditions (P : platform) (s : state) :
  (forall p src dst offset nbytes,
     MAX_DATA_REQUESTS P <= request_counter (coredata s) ->
     bsp_put P p src dst offset nbytes s = ebsp_message err_put_overflow s /\
     bsp_get P p src offset dst nbytes s = ebsp_message err_get_overflow s) /\
  (forall p tag payload nbytes,
     MAX_PAYLOAD_SIZE P
       < wrap32 (buffer_size (comm_buf s) + tag_size (coredata s) + nbytes) \/
     MAX_MESSAGES P <= count (active_queue s) ->
     bsp_send P p tag payload nbytes s = ebsp_message err_send_overflow s).
Proof.
  split.
  - intros p src dst offset nbytes Hfull. unfold bsp_put, bsp_get.
    destruct (Z.leb_spec (MAX_DATA_REQUESTS P) (request_counter (coredata s)));
      [split; reflexivity | lia].
  - intros p tag payload nbytes Hfull. unfold bsp_send, active_queue in *.
    assert (Hb : (MAX_PAYLOAD_SIZE P
                    <? wrap32 (buffer_size (comm_buf s) + tag_size (coredata s) + nbytes))
                 || (MAX_MESSAGES P
                       <=? count (message_queue (comm_buf s) (queue_index (coredata s))))
                 = true).
    { apply orb_true_iff. destruct Hfull; [left; now apply Z.ltb_lt | right; now apply Z.leb_le]. }
    rewrite Hb, Z.eqb_refl. destruct s. reflexivity.
Qed.

(** C6: from a state whose watermark is within the pool, a call reported
    to have failed with one of the four overflow messages leaves the
    core's own data (the request counter among them), the watermark, the
    request table, both message queues with their counts, the registration
    table and the byte memory as they were, and returns to its caller. In
    particular a [bsp_put] that finds room in the request table, resolves
    its destination, and asks for more bytes than the pool has left is
    reported as [err_put_overflow2], and its result is the state before
    the call with only that message relayed, so the watermark is
    unchanged. *)
Theorem overflow_leaves_state :
  forall (P : platform) (s : state),
    platform_ok P ->
    0 <= buffer_size (comm_buf s) <= MAX_PAYLOAD_SIZE P ->
    (forall (c : bsp_call) (e : ebsp_error),
       signalled s (exec_call P c s) e ->
       is_overflow e = true ->
       protocol_unchanged s (exec_call P c s)) /\
    (forall p src dst offset nbytes,
       request_counter (coredata s) < MAX_DATA_REQUESTS P ->
       fst (_get_remote_addr P p dst offset s) <> 0 ->
       size_ok nbytes ->
       MAX_PAYLOAD_SIZE P < buffer_size (comm_buf s) + nbytes ->
       let s' := bsp_put P p src dst offset nbytes s in
       signalled s s' err_put_overflow2 /\
       s' = ebsp_message err_put_overflow2 s /\
       buffer_size (comm_buf s') = buffer_size (comm_buf s)).
Proof.
  intros P s (Hpool & Hmsgs & _ & _) Hbs. split.
  - intros c e Hsig Hov.
    destruct (exec_call_outcome P c s) as [Hq | (e' & Hsig' & Hun)]; try lia.
    + exfalso. eapply signalled_not_quiet; eassumption.
    + rewrite (signalled_unique _ _ _ _ Hsig Hsig') in Hov. now apply Hun.
  - intros p src dst offset nbytes Hrc Hres Hn Hfull s'. subst s'.
    unfold size_ok in Hn. rewrite DATA_PUT_BIT_value in Hn.
    unfold bsp_put.
    destruct (Z.leb_spec (MAX_DATA_REQUESTS P) (request_counter (coredata s)));
      [lia|].
    destruct (get_remote_addr_cases P p dst offset s) as [Hs | Hnf];
      [|rewrite Hnf in Hres; cbn in Hres; congruence].
    destruct (_get_remote_addr P p dst offset s) as [dst_remote s1].
    cbn in Hs, Hres. subst s1.
    destruct (Z.eqb_spec dst_remote 0); [contradiction|].
    rewrite (wrap32_small (buffer_size (comm_buf s) + nbytes)) by lia.
    destruct (Z.ltb_spec (MAX_PAYLOAD_SIZE P) (buffer_size (comm_buf s) + nbytes));
      [|lia].
    rewrite Z.eqb_refl. destruct s. repeat split; reflexivity.
Qed.

Lemma example_platform_ok : platform_ok example_platform.
Proof. unfold platform_ok. cbn. lia. Qed.

(** The scenario of the spec: the pool holds 32768 bytes and is empty;
    a put of 32769 bytes to a registered variable. *)
Lemma overflow_leaves_state_witness :
  let s := core_view 0 once_registered in
  let s' := bsp_put example_platform 1 0x100 0x4000 0 32769 s in
  signalled s s' err_put_overflow2 /\
  buffer_size (comm_buf s') = buffer_size (comm_buf s) /\
  protocol_unchanged s s'.
Proof.
  intros s s'.
  assert (Hbs : 0 <= buffer_size (comm_buf s) <= MAX_PAYLOAD_SIZE example_platform)
    by (vm_compute; intuition congruence).
  destruct (overflow_leaves_state example_platform s example_platform_ok Hbs)
    as [Hany Hput].
  pose proof (Hput 1 0x100 0x4000 0 32769) as H.
  specialize (H ltac:(vm_compute; reflexivity)
                ltac:(vm_compute; congruence)
                ltac:(vm_compute; intuition congruence)
                ltac:(vm_compute; reflexivity)).
  destruct H as (Hsig & _ & Hwm).
  split; [exact Hsig | split; [exact Hwm |]].
  exact (Hany (call_put 1 0x100 0x4000 0 32769) err_put_overflow2 Hsig eq_refl).
Defined.

(** ** The payload pool *)




Lemma set_nth_length {A : Type} (k : nat) (x : A) (l : list A) :
  length (set_nth k x l) = length l.
Proof.
  revert k. induction l as [|h t IH]; intros [|k]; cbn; trivial.
  now rewrite IH.
Qed.

Lemma nth_error_set_nth_same {A : Type} (k : nat) (x : A) (l : list A) :
  (k < length l)%nat -> nth_error (set_nth k x l) k = Some x.
Proof.
  revert k. induction l as [|h t IH]; intros [|k] Hk; cbn in *; try lia; trivial.
  apply IH. lia.
Qed.

Lemma nth_error_set_nth_other {A : Type} (k j : nat) (x : A) (l : list A) :
  j <> k -> nth_error (set_nth k x l) j = nth_error l j.
Proof.
  revert k j. induction l as [|h t IH]; intros [|k] [|j] Hne; cbn; trivial.
  - congruence.
  - apply IH. congruence.
Qed.






(** ** Synchronisation of all cores *)

Lemma core_step_local (k : nat) (mc mc' : machine) (evs : list sync_event) :
  core_step k mc = Some (evs, mc') ->
  exists cd pc cd' pc' rs,
    nth_error (cores mc) k = Some (cd, pc) /\
    cores mc' = set_nth k (cd', pc') (cores mc) /\
    data_requests (shared mc') = data_requests (shared mc) /\
    ram mc' = replay evs (ram mc) /\
    evs = map (mk_sync_event k) rs /\
    local_step (data_requests (shared mc) (pid cd)) (all_arrived 3 mc) cd pc rs cd' pc'.
Proof.
  unfold core_step. intros H.
  destruct (nth_error (cores mc) k) as [[cd pc]|] eqn:Hk; [|discriminate].
  exists cd, pc.
  destruct pc as [| | i | | i | |].
  - inversion H; subst. exists cd, PcBarrier1, []. cbn. intuition constructor.
  - destruct (all_arrived 1 mc); inversion H; subst.
    exists cd, (PcGets 0), []. cbn. intuition constructor.
  - destruct (Z.ltb_spec i (request_counter cd)).
    + destruct (is_put_request (data_requests (shared mc) (pid cd) i)) eqn:Hput;
        inversion H; subst; cbn.
      * exists cd, (PcGets (i + 1)), []. cbn. intuition (now constructor).
      * exists cd, (PcGets (i + 1)), [data_requests (shared mc) (pid cd) i]. cbn.
        intuition (now constructor).
    + inversion H; subst. exists cd, PcBarrier2, []. cbn. intuition (now constructor).
  - destruct (all_arrived 3 mc) eqn:Ha; inversion H; subst.
    exists cd, (PcPuts 0), []. cbn. intuition (now constructor).
  - destruct (Z.ltb_spec i (request_counter cd)).
    + destruct (is_put_request (data_requests (shared mc) (pid cd) i)) eqn:Hput;
        inversion H; subst; cbn.
      * exists cd, (PcPuts (i + 1)), [data_requests (shared mc) (pid cd) i]. cbn.
        intuition (now constructor).
      * exists cd, (PcPuts (i + 1)), []. cbn. intuition (now constructor).
    + inversion H; subst. exists (sync_tail_core cd), PcBarrier3, []. cbn.
      repeat split; try (now constructor).
      unfold sync_tail_shared.
      destruct (negb (var_pushed cd =? 0) && (pid cd =? 0)); reflexivity.
  - destruct (all_arrived 5 mc); inversion H; subst.
    exists cd, PcDone, []. cbn. intuition constructor.
  - discriminate.
Qed.

Lemma local_step_rank reqs a cd pc rs cd' pc' :
  local_step reqs a cd pc rs cd' pc' -> (pc_rank pc <= pc_rank pc')%nat.
Proof. destruct 1; cbn; lia. Qed.

Lemma local_step_enter_puts reqs a cd pc rs cd' pc' :
  local_step reqs a cd pc rs cd' pc' ->
  (pc_rank pc < 4)%nat -> (4 <= pc_rank pc')%nat -> a = true.
Proof. destruct 1; cbn; intros; trivial; lia. Qed.

Lemma local_step_kinds reqs a cd pc rs cd' pc' :
  local_step reqs a cd pc rs cd' pc' ->
  rs = [] \/
  exists r, rs = [r] /\
            ((is_put_request r = false /\ pc_rank pc = 2%nat) \/
             (is_put_request r = true /\ pc_rank pc' = 4%nat)).
Proof.
  destruct 1; try (now left); right; eexists; split; try reflexivity; cbn; auto.
Qed.

Lemma phase_done_next (puts : bool) (i : Z) (cd : ebsp_core_data) (cb : ebsp_comm_buf) :
  0 <= i ->
  phase_done puts (i + 1) cd cb =
    phase_done puts i cd cb ++
    (if Bool.eqb (is_put_request (data_requests cb (pid cd) i)) puts
     then [data_requests cb (pid cd) i] else []).
Proof.
  intros Hi. unfold phase_done.
  replace (Z.to_nat (i + 1)) with (S (Z.to_nat i)) by lia.
  rewrite seq_S, map_app, filter_app. cbn.
  rewrite Z2Nat.id by lia. reflexivity.
Qed.

Lemma phase_done_end (puts : bool) (i : Z) (cd : ebsp_core_data) (cb : ebsp_comm_buf) :
  0 <= i <= Z.max 0 (request_counter cd) ->
  request_counter cd <= i ->
  phase_done puts i cd cb = phase_done puts (request_counter cd) cd cb.
Proof.
  intros Hi Hge. unfold phase_done.
  replace (Z.to_nat i) with (Z.to_nat (request_counter cd)) by lia. reflexivity.
Qed.

Lemma phase_done_zero (puts : bool) (cd : ebsp_core_data) (cb : ebsp_comm_buf) :
  phase_done puts 0 cd cb = [].
Proof. reflexivity. Qed.

Lemma local_step_core_inv (cb0 : ebsp_comm_buf) (cd0 : ebsp_core_data)
    reqs a cd pc rs cd' pc' :
  local_step reqs a cd pc rs cd' pc' ->
  ((pc_rank pc <= 4)%nat -> cd = cd0 /\ reqs = data_requests cb0 (pid cd0)) ->
  loop_index_ok cd0 pc ->
  expected_events cd0 cb0 pc' = expected_events cd0 cb0 pc ++ rs /\
  ((pc_rank pc' <= 4)%nat -> cd' = cd0) /\
  loop_index_ok cd0 pc'.
Proof.
  intros Hstep Hfrozen Hidx.
  destruct Hstep; cbn [pc_rank expected_events loop_index_ok] in *;
    try (destruct Hfrozen as [-> ->]; [lia|]).
  - repeat split; trivial.
  - repeat split; trivial; lia.
  - rewrite phase_done_next by lia. rewrite H0. cbn. repeat split; trivial; lia.
  - rewrite phase_done_next by lia. rewrite H0. cbn.
    rewrite !app_nil_r. repeat split; trivial; lia.
  - rewrite (phase_done_end false i) by lia.
    rewrite app_nil_r. repeat split; trivial.
  - rewrite phase_done_zero. repeat split; trivial; lia.
  - rewrite phase_done_next by lia. rewrite H0. cbn.
    rewrite app_assoc. repeat split; trivial; lia.
  - rewrite phase_done_next by lia. rewrite H0. cbn.
    rewrite !app_nil_r. repeat split; trivial; lia.
  - rewrite (phase_done_end true i) by lia. rewrite app_nil_r.
    repeat split; trivial. lia.
  - rewrite app_nil_r. repeat split; trivial. lia.
Qed.

Lemma forallb_nth_error {A : Type} (f : A -> bool) (l : list A) (k : nat) (c : A) :
  forallb f l = true -> nth_error l k = Some c -> f c = true.
Proof.
  intros Hall Hk. rewrite forallb_forall in Hall. apply Hall.
  eapply nth_error_In; eassumption.
Qed.

Lemma existsb_nth_error {A : Type} (f : A -> bool) (l : list A) (k : nat) (c : A) :
  nth_error l k = Some c -> f c = true -> existsb f l = true.
Proof.
  intros Hk Hc. apply existsb_exists. exists c. split; trivial.
  eapply nth_error_In; eassumption.
Qed.

Lemma forallb_set_nth {A : Type} (f : A -> bool) (k : nat) (x : A) (l : list A) :
  forallb f l = true -> f x = true -> forallb f (set_nth k x l) = true.
Proof.
  intros Hl Hx. revert k. induction l as [|h t IH]; intros [|k]; cbn in *; trivial.
  - apply andb_true_iff in Hl. destruct Hl as [_ Ht]. now rewrite Hx, Ht.
  - apply andb_true_iff in Hl. destruct Hl as [Hh Ht]. rewrite Hh. cbn. now apply IH.
Qed.

Lemma existsb_set_nth_elim {A : Type} (f : A -> bool) (k : nat) (x : A) (l : list A) :
  existsb f (set_nth k x l) = true -> f x = true \/ existsb f l = true.
Proof.
  revert k. induction l as [|h t IH]; intros [|k] H; cbn in *; try discriminate.
  - apply orb_true_iff in H. destruct H as [H | H]; [now left|].
    right. rewrite H. apply orb_true_r.
  - apply orb_true_iff in H. destruct H as [H | H].
    + right. now rewrite H.
    + destruct (IH _ H) as [Hx | Ht]; [now left|].
      right. rewrite Ht. apply orb_true_r.
Qed.

Lemma existsb_set_nth_mono {A : Type} (f : A -> bool) (k : nat) (c x : A) (l : list A) :
  nth_error l k = Some c ->
  (f c = true -> f x = true) ->
  existsb f l = true -> existsb f (set_nth k x l) = true.
Proof.
  revert k. induction l as [|h t IH]; intros [|k] Hk Hcx H; cbn in *; try discriminate.
  - inversion Hk; subst. apply orb_true_iff in H. apply orb_true_iff.
    destruct H; auto.
  - apply orb_true_iff in H. apply orb_true_iff.
    destruct H; [now left|]. right. eapply IH; eassumption.
Qed.

Lemma nth_error_length {A : Type} (l : list A) (k : nat) (c : A) :
  nth_error l k = Some c -> (k < length l)%nat.
Proof. intros H. apply nth_error_Some. congruence. Qed.

Lemma events_of_app (k : nat) (tr1 tr2 : list sync_event) :
  events_of k (tr1 ++ tr2) = events_of k tr1 ++ events_of k tr2.
Proof. unfold events_of. now rewrite filter_app, map_app. Qed.

Lemma events_of_own (k : nat) (rs : list ebsp_data_request) :
  events_of k (map (mk_sync_event k) rs) = rs.
Proof.
  unfold events_of. induction rs as [|r rs IH]; cbn; trivial.
  rewrite Nat.eqb_refl. cbn. now rewrite IH.
Qed.

Lemma events_of_other (j k : nat) (rs : list ebsp_data_request) :
  j <> k -> events_of j (map (mk_sync_event k) rs) = [].
Proof.
  intros Hne. unfold events_of. induction rs as [|r rs IH]; cbn; trivial.
  destruct (Nat.eqb_spec k j); [congruence | exact IH].
Qed.

Lemma replay_app (tr1 tr2 : list sync_event) (m : memory) :
  replay (tr1 ++ tr2) m = replay tr2 (replay tr1 m).
Proof. unfold replay. apply fold_left_app. Qed.

(** Every step of a core preserves what is known of the machine. *)
Lemma core_step_preserves (mc0 mc mc' : machine) (tr evs : list sync_event) (k : nat) :
  sync_inv mc0 mc tr ->
  core_step k mc = Some (evs, mc') ->
  sync_inv mc0 mc' (tr ++ evs).
Proof.
  intros [Hlen Hreq Hram Hcores Hphase (gs & ps & Htr & Hgs & Hps & Hsome)] Hstep.
  destruct (core_step_local k mc mc' evs Hstep)
    as (cd & pc & cd' & pc' & rs & Hk & Hcores' & Hreq' & Hram' & Hevs & Hloc).
  pose proof (nth_error_length _ _ _ Hk) as Hklen.
  pose proof (local_step_rank _ _ _ _ _ _ _ Hloc) as Hrank.
  destruct (Hcores k _ Hk) as (cd0 & Hk0 & Hev & Hfrozen & Hidx).
  cbn [fst snd] in *.
  assert (Hphase' : some_in_puts mc' = true -> all_arrived 3 mc' = true).
  { unfold some_in_puts, all_arrived. rewrite Hcores'. intros Hex.
    apply existsb_set_nth_elim in Hex. cbn [snd] in Hex.
    assert (Harr : all_arrived 3 mc = true).
    { destruct (Nat.leb_spec 4 (pc_rank pc)) as [Hpc | Hpc].
      - apply Hphase. unfold some_in_puts.
        eapply existsb_nth_error; [exact Hk|]. cbn [snd]. now apply Nat.leb_le.
      - destruct Hex as [Hx | Hold]; [|now apply Hphase].
        apply Nat.leb_le in Hx.
        eapply local_step_enter_puts; eassumption. }
    apply forallb_set_nth; [exact Harr|]. cbn [snd].
    pose proof (forallb_nth_error _ _ _ _ Harr Hk) as Hc. cbn [snd] in Hc.
    apply Nat.leb_le in Hc. apply Nat.leb_le. lia. }
  assert (Hmono : some_in_puts mc = true -> some_in_puts mc' = true).
  { unfold some_in_puts. rewrite Hcores'. intros Hex.
    eapply existsb_set_nth_mono; [exact Hk | | exact Hex].
    cbn [snd]. intros Hc. apply Nat.leb_le in Hc. apply Nat.leb_le. lia. }
  constructor.
  - rewrite Hcores', set_nth_length. exact Hlen.
  - congruence.
  - rewrite replay_app. congruence.
  - intros j c Hj. rewrite Hcores' in Hj.
    destruct (Nat.eq_dec j k) as [-> | Hne].
    + rewrite nth_error_set_nth_same in Hj by exact Hklen.
      inversion Hj; subst c. exists cd0. split; [exact Hk0|].
      destruct (local_step_core_inv (shared mc0) cd0 _ _ _ _ _ _ _ Hloc)
        as (Hexp & Hfrozen' & Hidx'); trivial.
      { intros Hle. rewrite (Hfrozen Hle). split; trivial. now rewrite Hreq. }
      unfold core_inv. cbn [fst snd].
      rewrite events_of_app, Hevs, events_of_own, Hev, Hexp. auto.
    + rewrite nth_error_set_nth_other in Hj by exact Hne.
      destruct (Hcores j c Hj) as (cdj & Hj0 & Hevj & Hrest).
      exists cdj. split; [exact Hj0|]. split; [|exact Hrest].
      rewrite events_of_app, Hevs, events_of_other by exact Hne.
      now rewrite app_nil_r.
  - exact Hphase'.
  - subst evs. destruct (local_step_kinds _ _ _ _ _ _ _ Hloc)
      as [-> | (r & -> & [[Hget Hpc] | [Hput Hpc']])]; cbn [map].
    + rewrite app_nil_r. exists gs, ps. repeat split; auto.
    + assert (Hnone : some_in_puts mc = false).
      { destruct (some_in_puts mc) eqn:Hs; trivial.
        pose proof (forallb_nth_error _ _ _ _ (Hphase eq_refl) Hk) as Hc.
        cbn [snd] in Hc. apply Nat.leb_le in Hc. lia. }
      assert (ps = []).
      { destruct ps; trivial. rewrite Hsome in Hnone; congruence. }
      subst ps. rewrite app_nil_r in Htr. subst tr.
      exists (gs ++ [mk_sync_event k r]), []. rewrite app_nil_r.
      repeat split; trivial.
      * apply Forall_app. split; trivial. constructor; trivial.
      * congruence.
    + exists gs, (ps ++ [mk_sync_event k r]). rewrite Htr, app_assoc.
      repeat split; trivial.
      * apply Forall_app. split; trivial. constructor; trivial.
      * intros _. unfold some_in_puts. rewrite Hcores'.
        apply existsb_exists. exists (cd', pc'). split.
        -- eapply nth_error_In. apply nth_error_set_nth_same. exact Hklen.
        -- cbn [snd]. apply Nat.leb_le. lia.
Qed.

Lemma run_preserves (mc0 : machine) (sched : list nat) :
  forall (mc mc' : machine) (tr0 tr : list sync_event),
    sync_inv mc0 mc tr0 ->
    run sched mc = Some (tr, mc') ->
    sync_inv mc0 mc' (tr0 ++ tr).
Proof.
  induction sched as [|k sched IH]; intros mc mc' tr0 tr Hinv Hrun; cbn in Hrun.
  - inversion Hrun; subst. now rewrite app_nil_r.
  - destruct (core_step k mc) as [[evs mc1]|] eqn:Hstep; [|discriminate].
    destruct (run sched mc1) as [[evs' mc2]|] eqn:Hrest; [|discriminate].
    inversion Hrun; subst. rewrite app_assoc.
    eapply IH; [|exact Hrest].
    eapply core_step_preserves; eassumption.
Qed.

Lemma sync_inv_start (mc0 : machine) :
  all_at PcRunning mc0 -> sync_inv mc0 mc0 [].
Proof.
  intros Hall. unfold all_at in Hall. rewrite Forall_forall in Hall.
  constructor; trivial.
  - intros k [cd pc] Hk. exists cd.
    pose proof (Hall _ (nth_error_In _ _ Hk)) as Hpc. cbn in Hpc. subst pc.
    split; [exact Hk|]. unfold core_inv. cbn. auto.
  - unfold some_in_puts. intros Hex. apply existsb_exists in Hex.
    destruct Hex as (c & Hin & Hc). rewrite (Hall _ Hin) in Hc. discriminate.
  - exists [], []. repeat split; trivial. congruence.
Qed.

Lemma gets_prefix (gs ps pre post : list sync_event) (e : sync_event) :
  gs ++ ps = pre ++ e :: post ->
  Forall (fun e => ev_is_put e = false) gs ->
  Forall (fun e => ev_is_put e = true) ps ->
  ev_is_put e = false ->
  Forall (fun e => ev_is_put e = false) pre.
Proof.
  revert pre. induction gs as [|g gs IH]; intros pre Heq Hgs Hps He.
  - cbn in Heq. subst ps. apply Forall_app in Hps. destruct Hps as [_ Hps].
    inversion Hps; subst. congruence.
  - destruct pre as [|p pre]; [constructor|].
    cbn in Heq. inversion Heq; subst. inversion Hgs; subst.
    constructor; trivial. eapply IH; eassumption.
Qed.

Lemma phase_done_pending (puts : bool) (cd : ebsp_core_data) (cb : ebsp_comm_buf) :
  phase_done puts (request_counter cd) cd cb =
    filter (fun r => Bool.eqb (is_put_request r) puts) (pending cd cb).
Proof. reflexivity. Qed.

Lemma run_result (sched : list nat) (mc0 : machine) (d : list sync_event * machine) :
  let r := match run sched mc0 with Some r => r | None => d end in
  (match run sched mc0 with Some _ => true | None => false end) = true ->
  run sched mc0 = Some (fst r, snd r).
Proof.
  destruct (run sched mc0) as [[tr mc]|]; cbn; [reflexivity | discriminate].
Qed.

Lemma all_at_done (mc : machine) :
  forallb (fun c => Nat.eqb (pc_rank (snd c)) 6) (cores mc) = true ->
  all_at PcDone mc.
Proof.
  intros H. rewrite forallb_forall in H. apply Forall_forall.
  intros [cd pc] Hin. specialize (H _ Hin). cbn in *.
  destruct pc; try discriminate. reflexivity.
Qed.

(** *** Completion

    Whatever the state of the machine, the core that is furthest behind
    can move, and every step brings the cores closer to having returned:
    the protocol cannot block, and it completes. *)

Lemma local_step_steps_left reqs a cd pc rs cd' pc' :
  local_step reqs a cd pc rs cd' pc' ->
  steps_left (cd, pc) = S (steps_left (cd', pc')).
Proof.
  destruct 1; unfold steps_left; cbn [fst snd]; lia.
Qed.

Lemma total_steps_set_nth (k : nat) (c c' : ebsp_core_data * sync_pc)
    (l : list (ebsp_core_data * sync_pc)) :
  nth_error l k = Some c ->
  steps_left c = S (steps_left c') ->
  fold_right (fun c n => (steps_left c + n)%nat) 0%nat l =
    S (fold_right (fun c n => (steps_left c + n)%nat) 0%nat (set_nth k c' l)).
Proof.
  revert k. induction l as [|h t IH]; intros [|k] Hk Hc; cbn in *; try discriminate.
  - inversion Hk; subst. lia.
  - rewrite (IH k Hk Hc). lia.
Qed.

Lemma core_step_steps_left (k : nat) (mc mc' : machine) (evs : list sync_event) :
  core_step k mc = Some (evs, mc') ->
  total_steps_left mc = S (total_steps_left mc').
Proof.
  intros Hstep.
  destruct (core_step_local k mc mc' evs Hstep)
    as (cd & pc & cd' & pc' & rs & Hk & Hcores' & _ & _ & _ & Hloc).
  unfold total_steps_left. rewrite Hcores'.
  eapply total_steps_set_nth; [exact Hk|].
  eapply local_step_steps_left; eassumption.
Qed.

Lemma furthest_behind (l : list (ebsp_core_data * sync_pc)) :
  l <> [] ->
  exists k c, nth_error l k = Some c /\
              forallb (fun c' => Nat.leb (pc_rank (snd c)) (pc_rank (snd c'))) l = true.
Proof.
  induction l as [|h t IH]; [congruence|]. intros _.
  assert (Hcase : t = [] \/ t <> [])
    by (destruct t; [left; reflexivity | right; discriminate]).
  destruct Hcase as [-> | Hne].
  - exists 0%nat, h. cbn. rewrite Nat.leb_refl. auto.
  - destruct (IH Hne) as (k & c & Hk & Hmin).
    destruct (Nat.leb_spec (pc_rank (snd h)) (pc_rank (snd c))) as [Hle | Hgt].
    + exists 0%nat, h. split; [reflexivity|].
      cbn [forallb]. rewrite Nat.leb_refl. cbn [andb].
      rewrite forallb_forall in *. intros x Hx. specialize (Hmin x Hx).
      apply Nat.leb_le in Hmin. apply Nat.leb_le. lia.
    + exists (S k), c. split; [exact Hk|].
      cbn [forallb]. rewrite Hmin.
      replace (Nat.leb (pc_rank (snd c)) (pc_rank (snd h))) with true; [reflexivity|].
      symmetry. apply Nat.leb_le. lia.
Qed.

Lemma arrived_of_least (r : nat) (mc : machine) (c : ebsp_core_data * sync_pc) :
  forallb (fun c' => Nat.leb (pc_rank (snd c)) (pc_rank (snd c'))) (cores mc) = true ->
  (r <= pc_rank (snd c))%nat ->
  all_arrived r mc = true.
Proof.
  intros Hmin Hr. unfold all_arrived. rewrite forallb_forall in *.
  intros x Hx. specialize (Hmin x Hx). apply Nat.leb_le in Hmin.
  apply Nat.leb_le. lia.
Qed.

Lemma least_can_step (k : nat) (mc : machine) (c : ebsp_core_data * sync_pc) :
  nth_error (cores mc) k = Some c ->
  forallb (fun c' => Nat.leb (pc_rank (snd c)) (pc_rank (snd c'))) (cores mc) = true ->
  snd c <> PcDone ->
  exists evs mc', core_step k mc = Some (evs, mc').
Proof.
  intros Hk Hmin Hnd. unfold core_step. rewrite Hk.
  destruct c as [cd pc]. cbn [snd] in *.
  destruct pc as [| | i | | i | |]; try congruence.
  - eauto.
  - rewrite (arrived_of_least 1 mc (cd, PcBarrier1)) by (trivial; cbn; lia). eauto.
  - destruct (i <? request_counter cd); [|eauto].
    destruct (negb (is_put_request (data_requests (shared mc) (pid cd) i))); eauto.
  - rewrite (arrived_of_least 3 mc (cd, PcBarrier2)) by (trivial; cbn; lia). eauto.
  - destruct (i <? request_counter cd); [|eauto].
    destruct (is_put_request (data_requests (shared mc) (pid cd) i)); eauto.
  - rewrite (arrived_of_least 5 mc (cd, PcBarrier3)) by (trivial; cbn; lia). eauto.
Qed.

Lemma all_done_of_least (mc : machine) (c : ebsp_core_data * sync_pc) :
  forallb (fun c' => Nat.leb (pc_rank (snd c)) (pc_rank (snd c'))) (cores mc) = true ->
  snd c = PcDone ->
  all_at PcDone mc.
Proof.
  intros Hmin Hc. apply all_at_done. rewrite forallb_forall in *.
  intros x Hx. specialize (Hmin x Hx). rewrite Hc in Hmin.
  destruct x as [cd pc]; destruct pc; cbn in *; congruence.
Qed.

Lemma sync_pc_done_dec (pc : sync_pc) : {pc = PcDone} + {pc <> PcDone}.
Proof. destruct pc; (now left) || (right; discriminate). Qed.

Lemma no_steps_left_done (l : list (ebsp_core_data * sync_pc)) :
  fold_right (fun c n => (steps_left c + n)%nat) 0%nat l = 0%nat <->
  Forall (fun c => snd c = PcDone) l.
Proof.
  induction l as [|[cd pc] t IH]; cbn.
  - split; [constructor | reflexivity].
  - split.
    + intros Hsum. constructor.
      * destruct pc; unfold steps_left in Hsum; cbn in *; try lia. reflexivity.
      * apply IH. lia.
    + intros Hall. inversion Hall as [|? ? Hpc Ht]; subst. cbn in Hpc. subst pc.
      apply IH in Ht. unfold steps_left at 1. cbn. exact Ht.
Qed.

(** From any state of the machine some schedule brings every core to the
    end of [bsp_sync]. *)
Lemma sync_completes (mc : machine) :
  exists sched tr mc', run sched mc = Some (tr, mc') /\ all_at PcDone mc'.
Proof.
  remember (total_steps_left mc) as n eqn:Hn. revert mc Hn.
  induction n as [|n IH]; intros mc Hn.
  - exists [], [], mc. split; [reflexivity|].
    apply no_steps_left_done. symmetry. exact Hn.
  - assert (Hne : cores mc <> []).
    { intros E. unfold total_steps_left in Hn. rewrite E in Hn. discriminate. }
    destruct (furthest_behind (cores mc) Hne) as (k & c & Hk & Hmin).
    destruct (sync_pc_done_dec (snd c)) as [Hd | Hnd].
    + pose proof (all_done_of_least mc c Hmin Hd) as Hall.
      apply no_steps_left_done in Hall. unfold total_steps_left in Hn. lia.
    + destruct (least_can_step k mc c Hk Hmin Hnd) as (evs & mc1 & Hstep).
      pose proof (core_step_steps_left k mc mc1 evs Hstep) as Hless.
      destruct (IH mc1) as (sched & tr & mc' & Hrun & Hall); [lia|].
      exists (k :: sched), (evs ++ tr), mc'. split; [|exact Hall].
      cbn [run]. rewrite Hstep, Hrun. reflexivity.
Qed.

(** *** One core alone

    With a single core the barriers never wait, and the protocol is the
    sequential [bsp_sync]. *)

Lemma run_app (s1 s2 : list nat) (mc mc1 mc2 : machine) (t1 t2 : list sync_event) :
  run s1 mc = Some (t1, mc1) ->
  run s2 mc1 = Some (t2, mc2) ->
  run (s1 ++ s2) mc = Some (t1 ++ t2, mc2).
Proof.
  revert mc t1. induction s1 as [|k s1 IH]; intros mc t1 H1 H2; cbn in *.
  - inversion H1; subst. exact H2.
  - destruct (core_step k mc) as [[evs mc']|]; [|discriminate].
    destruct (run s1 mc') as [[evs' mc'']|] eqn:Hr; [|discriminate].
    inversion H1; subst. rewrite (IH _ _ Hr H2). now rewrite app_assoc.
Qed.

Lemma single_core_loop (puts : bool) (cd : ebsp_core_data) (cb : ebsp_comm_buf) (n : nat) :
  forall (i : Z) (m : memory),
    i + Z.of_nat n <= request_counter cd ->
    exists tr,
      run (repeat 0%nat n)
          (mk_machine [(cd, if puts then PcPuts i else PcGets i)] cb m)
      = Some (tr,
              mk_machine [(cd, if puts then PcPuts (i + Z.of_nat n)
                               else PcGets (i + Z.of_nat n))] cb
                         (sync_pass puts n (data_requests cb (pid cd)) i m)).
Proof.
  induction n as [|n IH]; intros i m Hle.
  - exists []. cbn. now rewrite Z.add_0_r.
  - assert (Hlt : (i <? request_counter cd) = true) by (apply Z.ltb_lt; lia).
    destruct (IH (i + 1)
                 (if Bool.eqb (is_put_request (data_requests cb (pid cd) i)) puts
                  then apply_request (data_requests cb (pid cd) i) m else m))
      as (tr & Hrun); [lia|].
    replace (i + 1 + Z.of_nat n) with (i + Z.of_nat (S n)) in Hrun by lia.
    cbn [repeat run sync_pass].
    destruct puts; unfold core_step; cbn [cores nth_error shared ram]; rewrite Hlt;
      destruct (is_put_request (data_requests cb (pid cd) i));
      unfold set_core; cbn [negb Bool.eqb set_nth cores shared ram] in *;
      rewrite Hrun; eexists; reflexivity.
Qed.

Lemma bsp_sync_single_core (s : state) :
  let R := Z.to_nat (request_counter (coredata s)) in
  exists tr,
    run ([0; 0] ++ repeat 0 R ++ [0; 0] ++ repeat 0 R ++ [0; 0])%nat
        (mk_machine [(coredata s, PcRunning)] (comm_buf s) (mem s))
    = Some (tr,
            mk_machine [(coredata (bsp_sync s), PcDone)]
                       (comm_buf (bsp_sync s)) (mem (bsp_sync s))).
Proof.
  intros R. set (cd := coredata s). set (cb := comm_buf s).
  set (reqs := data_requests cb (pid cd)).
  assert (Hend : (Z.of_nat R <? request_counter cd) = false)
    by (apply Z.ltb_ge; subst R; fold cd; lia).
  assert (Hfit : 0 + Z.of_nat R <= request_counter cd \/ R = 0%nat)
    by (subst R; fold cd; lia).
  assert (Hloop : forall (puts : bool) (m : memory),
             exists tr,
               run (repeat 0%nat R)
                   (mk_machine [(cd, if puts then PcPuts 0 else PcGets 0)] cb m)
               = Some (tr,
                       mk_machine [(cd, if puts then PcPuts (Z.of_nat R)
                                        else PcGets (Z.of_nat R))] cb
                                  (sync_pass puts R reqs 0 m))).
  { intros puts m. destruct Hfit as [Hfit | Hz].
    - destruct (single_core_loop puts cd cb R 0 m Hfit) as (tr & Hrun).
      exists tr. exact Hrun.
    - rewrite Hz. exists []. destruct puts; reflexivity. }
  destruct (Hloop false (mem s)) as (tr1 & Hgets).
  destruct (Hloop true (sync_pass false R reqs 0 (mem s))) as (tr2 & Hputs).
  exists ([] ++ tr1 ++ [] ++ tr2 ++ []).
  eapply run_app; [reflexivity|].
  eapply run_app; [exact Hgets|].
  eapply run_app.
  { cbn [run]. unfold core_step at 1. cbn [cores nth_error]. rewrite Hend.
    unfold set_core. cbn [set_nth cores shared ram]. reflexivity. }
  eapply run_app; [exact Hputs|].
  cbn [run]. unfold core_step at 1. cbn [cores nth_error]. rewrite Hend.
  reflexivity.
Qed.

(** C1: all cores enter [bsp_sync] with their pending requests and run
    it concurrently, in any interleaving the barriers allow. Then the
    copies performed, in the order they happen, are gets (high bit of the
    byte count clear) followed by puts (high bit set): every get precedes
    every put. A core is in or past its put loop only when every core has
    left its get loop, which is what the barrier between the two loops
    enforces. Memory is at all times the initial memory with the copies
    so far applied in order, so a get performed from any state reached
    reads a memory to which gets only, and no put of this superstep, have
    been applied. The protocol can always complete, and when all cores
    have returned, each core has applied exactly its pending gets, in
    order, and then exactly its pending puts, in order. *)
Theorem sync_gets_before_puts :
  forall (mc0 mc : machine) (sched : list nat) (tr : list sync_event),
    all_at PcRunning mc0 ->
    run sched mc0 = Some (tr, mc) ->
    (exists gs ps, tr = gs ++ ps /\
                   Forall (fun e => ev_is_put e = false) gs /\
                   Forall (fun e => ev_is_put e = true) ps) /\
    (forall pre e post,
        tr = pre ++ e :: post ->
        ev_is_put e = false ->
        Forall (fun e' => ev_is_put e' = false) pre) /\
    (some_in_puts mc = true -> all_arrived 3 mc = true) /\
    ram mc = replay tr (ram mc0) /\
    (forall k e mc1,
        core_step k mc = Some ([e], mc1) ->
        ev_is_put e = false ->
        Forall (fun e' => ev_is_put e' = false) tr /\
        ram mc1 = apply_request (ev_req e) (replay tr (ram mc0))) /\
    (exists sched' tr' mc', run sched' mc = Some (tr', mc') /\ all_at PcDone mc') /\
    (all_at PcDone mc ->
     forall k cd0,
       nth_error (cores mc0) k = Some (cd0, PcRunning) ->
       events_of k tr =
         filter (fun r => negb (is_put_request r)) (pending cd0 (shared mc0)) ++
         filter is_put_request (pending cd0 (shared mc0))).
Proof.
  intros mc0 mc sched tr Hstart Hrun.
  pose proof (run_preserves mc0 sched mc0 mc [] tr (sync_inv_start mc0 Hstart) Hrun)
    as Hinv.
  cbn [app] in Hinv.
  pose proof Hinv as [Hlen _ Hram Hcores Hphase (gs & ps & Htr & Hgs & Hps & _)].
  split; [exists gs, ps; auto|].
  split.
  { intros pre e post Hsplit He. rewrite Htr in Hsplit.
    eapply gets_prefix; eassumption. }
  split; [exact Hphase|].
  split; [exact Hram|].
  split.
  { intros k e mc1 Hstep He.
    pose proof (core_step_preserves mc0 mc mc1 tr [e] k Hinv Hstep)
      as [_ _ Hram1 _ _ (gs1 & ps1 & Htr1 & Hgs1 & Hps1 & _)].
    split.
    - symmetry in Htr1. eapply gets_prefix; eassumption.
    - rewrite Hram1, replay_app. reflexivity. }
  split; [apply sync_completes|].
  intros Hdone k cd0 Hk0.
  assert (Hk : (k < length (cores mc))%nat).
  { rewrite Hlen. eapply nth_error_length; eassumption. }
  destruct (nth_error (cores mc) k) as [c|] eqn:Hc;
    [|apply nth_error_None in Hc; lia].
  destruct (Hcores k c Hc) as (cd0' & Hk0' & Hev & _).
  assert (cd0' = cd0) by congruence. subst cd0'.
  unfold all_at in Hdone. rewrite Forall_forall in Hdone.
  rewrite (Hdone c (nth_error_In _ _ Hc)) in Hev.
  rewrite Hev. cbn [expected_events]. rewrite !phase_done_pending.
  f_equal; apply filter_ext; intros r; destruct (is_put_request r); reflexivity.
Qed.

(** Core 0 issued its put before its get; the get still reads the byte 5
    that core 1's variable held on entry, and the put then stores 7. *)
Lemma sync_gets_before_puts_witness :
  let tr := fst exchange_result in
  let mc := snd exchange_result in
  all_at PcDone mc /\
  map ev_is_put tr = [false; false; true] /\
  length (events_of 0 tr) = 2%nat /\
  ram mc 0x700 = 5 /\
  ram mc 0x80905000 = 7.
Proof.
  intros tr mc.
  assert (Hstart : all_at PcRunning (machine_of exchange))
    by (repeat constructor).
  assert (Hrun : run exchange_schedule (machine_of exchange) = Some (tr, mc))
    by (apply run_result; vm_compute; reflexivity).
  assert (Hdone : all_at PcDone mc)
    by (apply all_at_done; vm_compute; reflexivity).
  destruct (sync_gets_before_puts _ _ _ _ Hstart Hrun)
    as (_ & _ & _ & Hram & _ & _ & Hall).
  split; [exact Hdone|].
  split; [vm_compute; reflexivity|].
  split; [rewrite (Hall Hdone 0%nat _ eq_refl); vm_compute; reflexivity|].
  rewrite Hram. split; vm_compute; reflexivity.
Defined.

(** *** The pool during synchronisation *)









(** * Further properties of the runtime *)

(** ** Identity of a core *)

Lemma sint32_small (z : Z) : - 2 ^ 31 <= z < 2 ^ 31 -> sint32 z = z.
Proof. intros H. unfold sint32. rewrite Z.mod_small by lia. lia. Qed.

(** X1: [bsp_begin] numbers the cores row by row, and [row_from_pid] and
    [col_from_pid] recover the grid position from the number: for a core
    at ([row], [col]) of a group with [group_cols] columns, with
    [0 <= col < group_cols], [0 <= row] and the number fitting an [int],
    the pid is [col + group_cols * row] and the two functions return
    [row] and [col]. *)
Theorem pid_grid_round_trip :
  forall (P : platform) (row col : Z) (cb : ebsp_comm_buf) (m : memory)
         (out : list (Z * ebsp_error)),
    0 <= col < group_cols P ->
    0 <= row ->
    col + group_cols P * row < 2 ^ 31 ->
    let s := mk_state (bsp_begin P row col cb) cb m out in
    bsp_pid s = col + group_cols P * row /\
    row_from_pid P (bsp_pid s) = row /\
    col_from_pid P (bsp_pid s) = col.
Proof.
  intros P row col cb m out Hcol Hrow Hfit s.
  assert (Hnn : 0 <= col + group_cols P * row) by nia.
  assert (Hpid : bsp_pid s = col + group_cols P * row).
  { unfold bsp_pid, s, bsp_begin. cbn [coredata pid].
    rewrite (sint32_small (col + group_cols P * row)) by lia.
    apply sint32_small. lia. }
  rewrite Hpid. split; [reflexivity|]. split.
  - unfold row_from_pid. symmetry.
    apply (Z.quot_unique _ _ row col); trivial.  lia.
  - unfold col_from_pid. symmetry.
    apply (Z.rem_unique _ _ row col); trivial. lia.
Qed.

Lemma pid_grid_round_trip_witness :
  let s := mk_state (bsp_begin example_platform 2 3 example_comm_buf)
                    example_comm_buf example_mem [] in
  bsp_pid s = 11 /\
  row_from_pid example_platform (bsp_pid s) = 2 /\
  col_from_pid example_platform (bsp_pid s) = 3.
Proof.
  apply (pid_grid_round_trip example_platform 2 3 example_comm_buf example_mem []);
    cbn; lia.
Defined.

(** ** Requests *)

Lemma land_put_bit (x : Z) :
  Z.land x DATA_PUT_BIT = if Z.testbit x 31 then DATA_PUT_BIT else 0.
Proof.
  rewrite DATA_PUT_BIT_value. apply Z.bits_inj'. intros k Hk.
  rewrite Z.land_spec.
  destruct (Z.testbit x 31) eqn:Hx.
  - rewrite Z.pow2_bits_eqb by lia.
    destruct (Z.eqb_spec 31 k) as [<- | Hne]; [now rewrite Hx|].
    apply andb_false_r.
  - rewrite Z.bits_0, Z.pow2_bits_eqb by lia.
    destruct (Z.eqb_spec 31 k) as [<- | Hne]; [now rewrite Hx|].
    apply andb_false_r.
Qed.


Lemma testbit31_high (x : Z) : 2 ^ 31 <= x < 2 ^ 32 -> Z.testbit x 31 = true.
Proof.
  intros H. apply Z.testbit_true; [lia|].
  replace (x / 2 ^ 31) with 1; [reflexivity|].
  apply (Z.div_unique x (2 ^ 31) 1 (x - 2 ^ 31)); lia.
Qed.

Lemma put_mask_value : wrap32 (Z.lnot DATA_PUT_BIT) = Z.ones 31.
Proof. reflexivity. Qed.




(** What an admitted [bsp_get] leaves behind. *)
Lemma bsp_get_admitted (P : platform) (p src offset dst nbytes : Z) (s : state) :
  let cd := coredata s in
  let remote := fst (_get_remote_addr P p src offset s) in
  0 <= request_counter cd < MAX_DATA_REQUESTS P ->
  MAX_DATA_REQUESTS P < 2 ^ 32 ->
  remote <> 0 ->
  bsp_get P p src offset dst nbytes s =
    mk_state
      (set_request_counter (request_counter cd + 1) cd)
      (set_data_requests
         (upd2 (data_requests (comm_buf s)) (pid cd) (request_counter cd)
            (mk_data_request remote dst (wrap32 nbytes)))
         (comm_buf s))
      (mem s)
      (host_out s).
Proof.
  intros cd remote Hrc Hmax Hres. subst remote.
  unfold bsp_get. fold cd.
  destruct (Z.leb_spec (MAX_DATA_REQUESTS P) (request_counter cd)); [lia|].
  split_resolution P p src offset s; [|rewrite Hnf in Hres; cbn in Hres; congruence].
  cbn [fst] in Hres.
  destruct (Z.eqb_spec remote 0); [contradiction|].
  cbn. fold cd. rewrite (wrap32_small (request_counter cd + 1)) by lia.
  reflexivity.
Qed.

(** ** Buffered transfers through a synchronisation *)





Lemma in_events_of (x : sync_event) (tr : list sync_event) :
  In x tr -> In (ev_req x) (events_of (ev_core x) tr).
Proof.
  intros Hin. unfold events_of. apply in_map. apply filter_In.
  split; [exact Hin | apply Nat.eqb_refl].
Qed.





Lemma run_events_valid (sched : list nat) :
  forall (mc mc' : machine) (tr : list sync_event),
    run sched mc = Some (tr, mc') ->
    length (cores mc') = length (cores mc) /\
    Forall (fun e => (ev_core e < length (cores mc))%nat) tr.
Proof.
  induction sched as [|k sched IH]; intros mc mc' tr Hrun; cbn in Hrun.
  - inversion Hrun; subst. auto.
  - destruct (core_step k mc) as [[evs mc1]|] eqn:Hstep; [|discriminate].
    destruct (run sched mc1) as [[evs' mc2]|] eqn:Hrest; [|discriminate].
    inversion Hrun; subst.
    destruct (core_step_local k mc mc1 evs Hstep)
      as (cd & pc & cd' & pc' & rs & Hk & Hcores' & _ & _ & Hevs & _).
    destruct (IH mc1 mc' evs' Hrest) as (Hlen & Hvalid).
    rewrite Hcores', set_nth_length in Hlen, Hvalid.
    split; [exact Hlen|]. apply Forall_app. split; [|exact Hvalid].
    subst evs. apply Forall_forall. intros e He. apply in_map_iff in He.
    destruct He as (r & <- & _). cbn. eapply nth_error_length; eassumption.
Qed.

(** What each core has copied when all cores have returned. *)
Lemma events_at_done (mc0 mc : machine) (tr : list sync_event) (k : nat)
    (cd0 : ebsp_core_data) :
  sync_inv mc0 mc tr ->
  all_at PcDone mc ->
  nth_error (cores mc0) k = Some (cd0, PcRunning) ->
  events_of k tr =
    filter (fun r => negb (is_put_request r)) (pending cd0 (shared mc0)) ++
    filter is_put_request (pending cd0 (shared mc0)).
Proof.
  intros [Hlen _ _ Hcores _ _] Hdone Hk0.
  assert (Hk : (k < length (cores mc))%nat).
  { rewrite Hlen. eapply nth_error_length; eassumption. }
  destruct (nth_error (cores mc) k) as [c|] eqn:Hc;
    [|apply nth_error_None in Hc; lia].
  destruct (Hcores k c Hc) as (cd0' & Hk0' & Hev & _).
  assert (cd0' = cd0) by congruence. subst cd0'.
  unfold all_at in Hdone. rewrite Forall_forall in Hdone.
  rewrite (Hdone c (nth_error_In _ _ Hc)) in Hev.
  rewrite Hev. cbn [expected_events]. rewrite !phase_done_pending.
  f_equal; apply filter_ext; intros r; destruct (is_put_request r); reflexivity.
Qed.

(** Every copy of a completed synchronisation is a pending request of the
    core that made it. *)
Lemma event_origin (mc0 mc : machine) (sched : list nat) (tr : list sync_event) :
  all_at PcRunning mc0 ->
  run sched mc0 = Some (tr, mc) ->
  all_at PcDone mc ->
  forall x, In x tr ->
    exists cd,
      nth_error (cores mc0) (ev_core x) = Some (cd, PcRunning) /\
      In (ev_req x) (pending cd (shared mc0)).
Proof.
  intros Hstart Hrun Hdone x Hx.
  pose proof (run_preserves mc0 sched mc0 mc [] tr (sync_inv_start mc0 Hstart) Hrun)
    as Hinv.
  cbn [app] in Hinv.
  destruct (run_events_valid sched mc0 mc tr Hrun) as (_ & Hvalid).
  rewrite Forall_forall in Hvalid. specialize (Hvalid x Hx).
  destruct (nth_error (cores mc0) (ev_core x)) as [[cd pc]|] eqn:Hk;
    [|apply nth_error_None in Hk; lia].
  unfold all_at in Hstart. rewrite Forall_forall in Hstart.
  pose proof (Hstart _ (nth_error_In _ _ Hk)) as Hpc. cbn in Hpc. subst pc.
  exists cd. split; [reflexivity|].
  pose proof (in_events_of x tr Hx) as Hin.
  rewrite (events_at_done mc0 mc tr (ev_core x) cd Hinv Hdone Hk) in Hin.
  apply in_app_or in Hin. destruct Hin as [Hin | Hin];
    apply filter_In in Hin; tauto.
Qed.








(** X4: [bsp_get] stores the byte count it is given as it is. A negative
    count has its high bit set, so the request recorded is one that
    [bsp_sync] takes for a put: a core that reaches this request in the
    first loop of [bsp_sync] passes over it without copying, and a core
    that reaches it in the second loop applies it, as a copy of
    [nbytes + 2^31] bytes from the resolved source to [dst]. *)
Theorem negative_get_is_queued_as_put :
  forall (P : platform) (p src offset dst nbytes : Z) (s : state)
         (k : nat) (mc : machine),
    let cd := coredata s in
    let rc := request_counter cd in
    let remote := fst (_get_remote_addr P p src offset s) in
    0 <= rc < MAX_DATA_REQUESTS P ->
    MAX_DATA_REQUESTS P < 2 ^ 32 ->
    remote <> 0 ->
    - 2 ^ 31 <= nbytes < 0 ->
    let s' := bsp_get P p src offset dst nbytes s in
    let cd' := coredata s' in
    let r := data_requests (comm_buf s') (pid cd) rc in
    shared mc = comm_buf s' ->
    request_counter cd' = rc + 1 /\
    r = mk_data_request remote dst (nbytes + 2 ^ 32) /\
    is_put_request r = true /\
    request_length r = nbytes + 2 ^ 31 /\
    (nth_error (cores mc) k = Some (cd', PcGets rc) ->
     core_step k mc = Some ([], set_core k (cd', PcGets (rc + 1)) mc)) /\
    (nth_error (cores mc) k = Some (cd', PcPuts rc) ->
     core_step k mc
     = Some ([mk_sync_event k r],
             mk_machine (set_nth k (cd', PcPuts (rc + 1)) (cores mc)) (shared mc)
                        (memcpy dst remote (nbytes + 2 ^ 31) (ram mc)))).
Proof.
  intros P p src offset dst nbytes s k mc cd rc remote Hrc Hmax Hres Hn s' cd' r
         Hshared.
  assert (Hs' : s' = mk_state
                       (set_request_counter (rc + 1) cd)
                       (set_data_requests
                          (upd2 (data_requests (comm_buf s)) (pid cd) rc
                             (mk_data_request remote dst (wrap32 nbytes)))
                          (comm_buf s))
                       (mem s) (host_out s))
    by (apply bsp_get_admitted; assumption).
  assert (Hw : wrap32 nbytes = nbytes + 2 ^ 32).
  { unfold wrap32. symmetry.
    apply (Z.mod_unique nbytes (2 ^ 32) (-1) (nbytes + 2 ^ 32)); lia. }
  assert (Hcount : request_counter cd' = rc + 1) by (unfold cd'; now rewrite Hs').
  assert (Hpid : pid cd' = pid cd) by (unfold cd'; now rewrite Hs').
  assert (Hr : r = mk_data_request remote dst (nbytes + 2 ^ 32)).
  { unfold r. rewrite Hs'. cbn [comm_buf set_data_requests data_requests].
    now rewrite upd2_same, Hw. }
  assert (Hput : is_put_request r = true).
  { rewrite Hr. unfold is_put_request. cbn [req_nbytes].
    now rewrite land_put_bit, testbit31_high by lia. }
  assert (Hlen : request_length r = nbytes + 2 ^ 31).
  { rewrite Hr. unfold request_length. cbn [req_nbytes].
    rewrite put_mask_value, Z.land_ones by lia. symmetry.
    apply (Z.mod_unique (nbytes + 2 ^ 32) (2 ^ 31) 1 (nbytes + 2 ^ 31)); lia. }
  assert (Hlt : (rc <? request_counter cd') = true) by (apply Z.ltb_lt; lia).
  split; [exact Hcount|]. split; [exact Hr|]. split; [exact Hput|].
  split; [exact Hlen|]. split.
  - intros Hk. unfold core_step. rewrite Hk, Hlt, Hshared, Hpid. fold r.
    rewrite Hput. reflexivity.
  - intros Hk. unfold core_step. rewrite Hk, Hlt. cbv zeta.
    rewrite Hshared, Hpid. fold r. rewrite Hput.
    unfold apply_request. rewrite Hlen. rewrite Hr at 2 3. reflexivity.
Qed.

(** Core 0 gets core 1's variable, which holds 5, with a count of -4: the
    first loop does nothing with the request, the second copies. *)
Lemma negative_get_is_queued_as_put_witness :
  let s := core_view 0 exchange_start in
  let s' := bsp_get example_platform 1 0x4000 0 0x700 (-4) s in
  let at_pc := fun pc => mk_machine [(coredata s', pc)] (comm_buf s') (mem s') in
  option_map fst (core_step 0 (at_pc (PcGets 0))) = Some [] /\
  option_map (fun r => ram (snd r) 0x700) (core_step 0 (at_pc (PcPuts 0))) = Some 5 /\
  request_length (data_requests (comm_buf s') 0 0) = 2 ^ 31 - 4.
Proof.
  intros s s' at_pc.
  pose proof (fun pc => negative_get_is_queued_as_put example_platform 1 0x4000 0 0x700
                          (-4) s 0%nat (at_pc pc)
                          ltac:(vm_compute; intuition congruence)
                          ltac:(vm_compute; reflexivity)
                          ltac:(vm_compute; congruence)
                          ltac:(lia) eq_refl) as H.
  cbv zeta in H. fold s' in H.
  destruct (H (PcGets 0)) as (_ & _ & _ & Hlen & Hskip & _).
  destruct (H (PcPuts 0)) as (_ & _ & _ & _ & _ & Hcopy).
  split; [|split].
  - exact (f_equal (option_map fst) (Hskip eq_refl)).
  - exact (eq_trans (f_equal (option_map (fun r => ram (snd r) 0x700)) (Hcopy eq_refl))
                    eq_refl).
  - exact Hlen.
Defined.

(** ** Bounds of the shared tables *)

(** Case split on every test of the goal. *)
Ltac split_tests :=
  repeat match goal with
         | |- context [if ?b then _ else _] => destruct b eqn:?
         end.

Lemma next_queue_message_frame (s : state) :
  let s1 := snd (_next_queue_message s) in
  comm_buf s1 = comm_buf s /\ mem s1 = mem s /\ host_out s1 = host_out s /\
  pid (coredata s1) = pid (coredata s) /\
  request_counter (coredata s1) = request_counter (coredata s) /\
  var_pushed (coredata s1) = var_pushed (coredata s) /\
  queue_index (coredata s1) = queue_index (coredata s).
Proof.
  unfold _next_queue_message.
  destruct (next_from (remaining s) (active_queue s) (pid (coredata s))
              (message_index (coredata s))) as [m idx].
  repeat split; reflexivity.
Qed.

Lemma writes_in_bounds_refl (P : platform) (s : state) : writes_in_bounds P s s.
Proof. unfold writes_in_bounds. auto. Qed.

Lemma writes_in_bounds_trans (P : platform) (s1 s2 s3 : state) :
  writes_in_bounds P s1 s2 -> writes_in_bounds P s2 s3 -> writes_in_bounds P s1 s3.
Proof.
  unfold writes_in_bounds. intros (Hp & Hr & Hv & Hm) (Hp' & Hr' & Hv' & Hm').
  rewrite Hp in *. repeat split; try congruence.
  - intros q j H. rewrite Hr', Hr; auto.
  - intros slot q H. rewrite Hv', Hv; auto.
  - intros qi j H. rewrite Hm', Hm; auto.
Qed.

(** A step that leaves the tables and the fields guarding them alone. *)
Lemma untouched_tables (P : platform) (s s' : state) :
  tables_ok P s ->
  pid (coredata s') = pid (coredata s) ->
  request_counter (coredata s') = request_counter (coredata s) ->
  var_pushed (coredata s') = var_pushed (coredata s) ->
  queue_index (coredata s') = queue_index (coredata s) ->
  data_requests (comm_buf s') = data_requests (comm_buf s) ->
  bsp_var_list (comm_buf s') = bsp_var_list (comm_buf s) ->
  bsp_var_counter (comm_buf s') = bsp_var_counter (comm_buf s) ->
  message_queue (comm_buf s') = message_queue (comm_buf s) ->
  tables_ok P s' /\ writes_in_bounds P s s'.
Proof.
  unfold tables_ok, writes_in_bounds.
  intros Hok Hp Hrc Hvp Hqi Hdr Hvl Hvc Hmq.
  rewrite Hp, Hrc, Hvp, Hqi, Hdr, Hvl, Hvc, Hmq. auto.
Qed.

Lemma untouched_by_message (P : platform) (e : ebsp_error) (s : state) :
  tables_ok P s -> tables_ok P (ebsp_message e s) /\ writes_in_bounds P s (ebsp_message e s).
Proof. intros H. apply untouched_tables; trivial. Qed.

Lemma tables_ok_intro (P : platform) (s : state) :
  0 <= request_counter (coredata s) <= MAX_DATA_REQUESTS P ->
  0 <= bsp_var_counter (comm_buf s) <= MAX_BSP_VARS P ->
  (var_pushed (coredata s) <> 0 -> bsp_var_counter (comm_buf s) < MAX_BSP_VARS P) ->
  (queue_index (coredata s) = 0 \/ queue_index (coredata s) = 1) ->
  (forall qi, 0 <= count (message_queue (comm_buf s) qi) <= MAX_MESSAGES P) ->
  tables_ok P s.
Proof. unfold tables_ok. auto. Qed.

Lemma writes_in_bounds_intro (P : platform) (s s' : state) :
  pid (coredata s') = pid (coredata s) ->
  (forall q j,
      q <> pid (coredata s) \/ ~ (0 <= j < MAX_DATA_REQUESTS P) ->
      data_requests (comm_buf s') q j = data_requests (comm_buf s) q j) ->
  (forall slot q,
      q <> pid (coredata s) \/ ~ (0 <= slot < MAX_BSP_VARS P) ->
      bsp_var_list (comm_buf s') slot q = bsp_var_list (comm_buf s) slot q) ->
  (forall qi j,
      ~ (0 <= qi <= 1) \/ ~ (0 <= j < MAX_MESSAGES P) ->
      message (message_queue (comm_buf s') qi) j
        = message (message_queue (comm_buf s) qi) j) ->
  writes_in_bounds P s s'.
Proof. unfold writes_in_bounds. auto. Qed.

Lemma exec_call_tables (P : platform) (c : bsp_call) (s : state) :
  platform_ok P ->
  tables_ok P s ->
  tables_ok P (exec_call P c s) /\ writes_in_bounds P s (exec_call P c s).
Proof.
  intros (_ & Hmsgs & Hreqs & Hvars) Hok.
  pose proof Hok as (Hrc & Hvc & Hpushed & Hqi & Hcount).
  destruct c; cbn [exec_call].
  - (* bsp_push_reg *)
    unfold bsp_push_reg.
    destruct (negb (var_pushed (coredata s) =? 0));
      [now apply untouched_by_message|].
    destruct (Z.eqb_spec (bsp_var_counter (comm_buf s)) (MAX_BSP_VARS P));
      [now apply untouched_by_message|].
    split; [apply tables_ok_intro | apply writes_in_bounds_intro];
      cbn; trivial; try lia.
    intros slot q Hout. apply upd2_other. lia.
  - (* bsp_put *)
    unfold bsp_put.
    destruct (Z.leb_spec (MAX_DATA_REQUESTS P) (request_counter (coredata s)));
      [now apply untouched_by_message|].
    split_resolution P p dst offset s; [|now apply untouched_by_message].
    destruct (remote =? 0); [now apply untouched_tables|].
    destruct (MAX_PAYLOAD_SIZE P <? wrap32 (buffer_size (comm_buf s) + nbytes)).
    + rewrite Z.eqb_refl. now apply untouched_tables.
    + destruct (buffer_size (comm_buf s) =? wrap32 (-1));
        [now apply untouched_tables|].
      split; [apply tables_ok_intro | apply writes_in_bounds_intro];
        cbn; trivial; try (rewrite wrap32_small by lia; lia).
      intros q j Hout. apply upd2_other. lia.
  - (* bsp_hpput *)
    unfold bsp_hpput.
    split_resolution P p dst offset s; [|now apply untouched_by_message].
    destruct (remote =? 0); now apply untouched_tables.
  - (* bsp_get *)
    unfold bsp_get.
    destruct (Z.leb_spec (MAX_DATA_REQUESTS P) (request_counter (coredata s)));
      [now apply untouched_by_message|].
    split_resolution P p src offset s; [|now apply untouched_by_message].
    destruct (remote =? 0); [now apply untouched_tables|].
    split; [apply tables_ok_intro | apply writes_in_bounds_intro];
      cbn; trivial; try (rewrite wrap32_small by lia; lia).
    intros q j Hout. apply upd2_other. lia.
  - (* bsp_hpget *)
    unfold bsp_hpget.
    split_resolution P p src offset s; [|now apply untouched_by_message].
    destruct (remote =? 0); now apply untouched_tables.
  - (* bsp_set_tagsize *)
    now apply untouched_tables.
  - (* bsp_send *)
    unfold bsp_send.
    destruct (MAX_PAYLOAD_SIZE P
                <? wrap32 (buffer_size (comm_buf s) + tag_size (coredata s) + nbytes)).
    { cbn [orb]. rewrite Z.eqb_refl. now apply untouched_tables. }
    cbn [orb].
    destruct (Z.leb_spec (MAX_MESSAGES P)
                (count (message_queue (comm_buf s) (queue_index (coredata s))))).
    { rewrite Z.eqb_refl. now apply untouched_tables. }
    pose proof (Hcount (queue_index (coredata s))) as Hc.
    rewrite wrap32_minus_one.
    destruct (Z.eqb_spec (count (message_queue (comm_buf s) (queue_index (coredata s))))
                (2 ^ 32 - 1)); [lia|].
    split; [apply tables_ok_intro | apply writes_in_bounds_intro]; cbn; trivial.
    + intros qi. unfold upd.
      destruct (qi =? queue_index (coredata s)); cbn; [|apply Hcount].
      rewrite Z.eqb_refl. cbn. rewrite wrap32_small by lia. lia.
    + intros qi j Hout. unfold upd.
      destruct (Z.eqb_spec qi (queue_index (coredata s))) as [-> | Hne];
        [|reflexivity].
      rewrite !Z.eqb_refl. cbn.
      destruct (Z.eqb_spec j (count (message_queue (comm_buf s)
                                       (queue_index (coredata s))))); [lia|].
      reflexivity.
  - (* bsp_qsize *)
    unfold bsp_qsize.
    destruct (qsize_loop (remaining s) (active_queue s) (pid (coredata s))
                (message_index (coredata s)) 0 0) as [[idx pp] acc].
    now apply untouched_tables.
  - (* bsp_get_tag *)
    destruct (next_queue_message_frame s) as (H1 & _ & _ & H2 & H3 & H4 & H5).
    unfold bsp_get_tag. destruct (_next_queue_message s) as [[h|] s1];
      cbn in *; apply untouched_tables; cbn; congruence.
  - (* bsp_move *)
    destruct (next_queue_message_frame s) as (H1 & _ & _ & H2 & H3 & H4 & H5).
    unfold bsp_move. destruct (_next_queue_message s) as [[h|] s1];
      cbn in *; [destruct (_ =? 0)|]; apply untouched_tables; cbn; congruence.
  - (* bsp_hpmove *)
    destruct (next_queue_message_frame s) as (H1 & _ & _ & H2 & H3 & H4 & H5).
    unfold bsp_hpmove. destruct (_next_queue_message s) as [[h|] s1];
      cbn in *; apply untouched_tables; cbn; congruence.
Qed.

Lemma bsp_sync_tables (P : platform) (s : state) :
  platform_ok P ->
  tables_ok P s ->
  tables_ok P (bsp_sync s) /\ writes_in_bounds P s (bsp_sync s).
Proof.
  intros (_ & _ & Hreqs & Hvars) (Hrc & Hvc & Hpushed & Hqi & Hcount).
  assert (Hvl : bsp_var_list (comm_buf (bsp_sync s)) = bsp_var_list (comm_buf s)
                /\ data_requests (comm_buf (bsp_sync s)) = data_requests (comm_buf s)
                /\ message_queue (comm_buf (bsp_sync s)) = message_queue (comm_buf s)).
  { unfold bsp_sync, sync_tail_shared. cbn.
    destruct (negb (var_pushed (coredata s) =? 0) && (pid (coredata s) =? 0));
      repeat split; reflexivity. }
  destruct Hvl as (Hvl & Hdr & Hmq).
  assert (Hpid : pid (coredata (bsp_sync s)) = pid (coredata s)).
  { unfold bsp_sync, sync_tail_core. cbn.
    destruct (negb (var_pushed (coredata s) =? 0)); reflexivity. }
  split; [apply tables_ok_intro | apply writes_in_bounds_intro];
    rewrite ?Hvl, ?Hdr, ?Hmq; trivial.
  - unfold bsp_sync, sync_tail_core. cbn.
    destruct (negb (var_pushed (coredata s) =? 0)); cbn; lia.
  - unfold bsp_sync, sync_tail_shared. cbn.
    destruct (Z.eqb_spec (var_pushed (coredata s)) 0) as [Hz | Hnz]; cbn; [lia|].
    destruct (pid (coredata s) =? 0); cbn; [|lia].
    specialize (Hpushed Hnz). rewrite sint32_small by lia. lia.
  - intros Hnz. exfalso. apply Hnz.
    unfold bsp_sync, sync_tail_core. cbn.
    destruct (Z.eqb_spec (var_pushed (coredata s)) 0) as [Hz | Hnz']; cbn; trivial.
  - unfold bsp_sync, sync_tail_core. cbn.
    destruct (negb (var_pushed (coredata s) =? 0)); cbn;
      destruct Hqi as [-> | ->]; cbn; auto.
Qed.

Lemma run_ops_tables (P : platform) (ops : list bsp_op) :
  forall s : state,
    platform_ok P ->
    tables_ok P s ->
    tables_ok P (run_ops P ops s) /\ writes_in_bounds P s (run_ops P ops s).
Proof.
  unfold run_ops.
  induction ops as [|o ops IH]; intros s HP Hok; cbn [fold_left].
  - split; [exact Hok | apply writes_in_bounds_refl].
  - assert (Hstep : tables_ok P (exec_op P o s) /\ writes_in_bounds P s (exec_op P o s)).
    { destruct o; cbn [exec_op];
        [now apply exec_call_tables | now apply bsp_sync_tables]. }
    destruct Hstep as [Hok1 Hw1].
    destruct (IH _ HP Hok1) as [Hok2 Hw2].
    split; [exact Hok2 | eapply writes_in_bounds_trans; eassumption].
Qed.

(** X5: Whatever a core calls, and however often it synchronises, its request
    counter stays between 0 and [MAX_DATA_REQUESTS], and the only entries
    of the request table that change are entries of its own row at an
    index below [MAX_DATA_REQUESTS]: [bsp_put] and [bsp_get] never store
    past the end of the row nor into the row of another core. *)
Theorem request_table_bounds :
  forall (P : platform) (ops : list bsp_op) (s : state),
    platform_ok P ->
    tables_ok P s ->
    let s' := run_ops P ops s in
    0 <= request_counter (coredata s') <= MAX_DATA_REQUESTS P /\
    forall q j,
      q <> pid (coredata s) \/ ~ (0 <= j < MAX_DATA_REQUESTS P) ->
      data_requests (comm_buf s') q j = data_requests (comm_buf s) q j.
Proof.
  intros P ops s HP Hok s'.
  destruct (run_ops_tables P ops s HP Hok) as [(Hrc & _) (_ & Hdr & _)].
  split; [exact Hrc | exact Hdr].
Qed.

(** X6: Whatever a core calls, and however often it synchronises, the
    registration counter stays between 0 and [MAX_BSP_VARS], and the only
    entries of the registration table that change are entries of its own
    column at a slot below [MAX_BSP_VARS]. *)
Theorem registration_table_bounds :
  forall (P : platform) (ops : list bsp_op) (s : state),
    platform_ok P ->
    tables_ok P s ->
    let s' := run_ops P ops s in
    0 <= bsp_var_counter (comm_buf s') <= MAX_BSP_VARS P /\
    forall slot q,
      q <> pid (coredata s) \/ ~ (0 <= slot < MAX_BSP_VARS P) ->
      bsp_var_list (comm_buf s') slot q = bsp_var_list (comm_buf s) slot q.
Proof.
  intros P ops s HP Hok s'.
  destruct (run_ops_tables P ops s HP Hok) as [(_ & Hvc & _) (_ & _ & Hvl & _)].
  split; [exact Hvc | exact Hvl].
Qed.

(** X7: Whatever a core calls, and however often it synchronises, its queue
    index is 0 or 1, both queues hold at most [MAX_MESSAGES] messages,
    and the only message slots that change are slots below [MAX_MESSAGES]
    of these two queues. *)
Theorem message_queue_bounds :
  forall (P : platform) (ops : list bsp_op) (s : state),
    platform_ok P ->
    tables_ok P s ->
    let s' := run_ops P ops s in
    (queue_index (coredata s') = 0 \/ queue_index (coredata s') = 1) /\
    (forall qi, 0 <= count (message_queue (comm_buf s') qi) <= MAX_MESSAGES P) /\
    forall qi j,
      ~ (0 <= qi <= 1) \/ ~ (0 <= j < MAX_MESSAGES P) ->
      message (message_queue (comm_buf s') qi) j
        = message (message_queue (comm_buf s) qi) j.
Proof.
  intros P ops s HP Hok s'.
  destruct (run_ops_tables P ops s HP Hok)
    as [(_ & _ & _ & Hqi & Hcount) (_ & _ & _ & Hmsg)].
  split; [exact Hqi | split; [exact Hcount | exact Hmsg]].
Qed.

Lemma example_tables_ok : tables_ok example_platform (core_view 0 once_registered).
Proof.
  apply tables_ok_intro; vm_compute; intuition congruence.
Qed.

Lemma request_table_bounds_witness :
  let s := core_view 0 once_registered in
  let s' := run_ops example_platform
              [op_call (call_put 1 0x100 0x4000 0 2);
               op_call (call_get 1 0x4000 0 0x700 1)] s in
  0 <= request_counter (coredata s') <= 128 /\
  data_requests (comm_buf s') 1 0 = data_requests (comm_buf s) 1 0 /\
  data_requests (comm_buf s') 0 128 = data_requests (comm_buf s) 0 128.
Proof.
  intros s s'.
  destruct (request_table_bounds example_platform
              [op_call (call_put 1 0x100 0x4000 0 2);
               op_call (call_get 1 0x4000 0 0x700 1)] s
              example_platform_ok example_tables_ok) as [Hrc Hframe].
  split; [exact Hrc | split].
  - apply Hframe. left. vm_compute. congruence.
  - apply Hframe. right. cbn. lia.
Defined.

Lemma registration_table_bounds_witness :
  let s := core_view 0 once_registered in
  let s' := run_ops example_platform
              [op_call (call_push_reg 0x4100 4); op_sync;
               op_call (call_push_reg 0x4200 4)] s in
  0 <= bsp_var_counter (comm_buf s') <= 64 /\
  bsp_var_list (comm_buf s') 1 1 = bsp_var_list (comm_buf s) 1 1 /\
  bsp_var_list (comm_buf s') 64 0 = bsp_var_list (comm_buf s) 64 0.
Proof.
  intros s s'.
  destruct (registration_table_bounds example_platform
              [op_call (call_push_reg 0x4100 4); op_sync;
               op_call (call_push_reg 0x4200 4)] s
              example_platform_ok example_tables_ok) as [Hvc Hframe].
  split; [exact Hvc | split].
  - apply Hframe. left. vm_compute. congruence.
  - apply Hframe. right. cbn. lia.
Defined.

Lemma message_queue_bounds_witness :
  let s := core_view 0 once_registered in
  let s' := run_ops example_platform
              [op_call (call_send 1 0x200 0x100 2); op_sync;
               op_call (call_send 1 0x201 0x102 1)] s in
  (queue_index (coredata s') = 0 \/ queue_index (coredata s') = 1) /\
  0 <= count (message_queue (comm_buf s') 0) <= 256 /\
  message (message_queue (comm_buf s') 2) 0 = message (message_queue (comm_buf s) 2) 0.
Proof.
  intros s s'.
  destruct (message_queue_bounds example_platform
              [op_call (call_send 1 0x200 0x100 2); op_sync;
               op_call (call_send 1 0x201 0x102 1)] s
              example_platform_ok example_tables_ok) as (Hqi & Hcount & Hframe).
  split; [exact Hqi | split; [exact (Hcount 0) |]].
  apply Hframe. left. lia.
Defined.

(** ** Where the calls write *)

(** X8: [bsp_put] and [bsp_send] write memory inside the payload pool only:
    with a watermark and a tag size within the pool and a byte count in
    [0, 2^31), every byte outside [payload_buf, payload_buf +
    MAX_PAYLOAD_SIZE) is the same after the call as before, whether the
    call is admitted or not. *)
Theorem staging_stays_in_pool :
  forall (P : platform) (s : state) (nbytes : Z),
    platform_ok P ->
    0 <= buffer_size (comm_buf s) <= MAX_PAYLOAD_SIZE P ->
    0 <= tag_size (coredata s) <= MAX_PAYLOAD_SIZE P ->
    size_ok nbytes ->
    forall a,
      ~ (payload_buf P <= a < payload_buf P + MAX_PAYLOAD_SIZE P) ->
      (forall p src dst offset,
          mem (bsp_put P p src dst offset nbytes s) a = mem s a) /\
      (forall p tag payload,
          mem (bsp_send P p tag payload nbytes s) a = mem s a).
Proof.
  intros P s nbytes (Hpool & Hmsgs & _ & _) Hbs Hts Hn a Hout.
  unfold size_ok in Hn. rewrite DATA_PUT_BIT_value in Hn. split.
  - intros p src dst offset. unfold bsp_put.
    destruct (MAX_DATA_REQUESTS P <=? request_counter (coredata s)); [reflexivity|].
    split_resolution P p dst offset s; [|reflexivity].
    destruct (remote =? 0); [reflexivity|].
    rewrite (wrap32_small (buffer_size (comm_buf s) + nbytes)) by lia.
    destruct (Z.ltb_spec (MAX_PAYLOAD_SIZE P) (buffer_size (comm_buf s) + nbytes)).
    + rewrite Z.eqb_refl. reflexivity.
    + rewrite wrap32_minus_one.
      destruct (Z.eqb_spec (buffer_size (comm_buf s)) (2 ^ 32 - 1)); [lia|].
      cbn. rewrite (wrap32_small nbytes) by lia.
      apply memcpy_outside. lia.
  - intros p tag payload. unfold bsp_send.
    rewrite (wrap32_small (buffer_size (comm_buf s) + tag_size (coredata s) + nbytes))
      by lia.
    destruct (Z.ltb_spec (MAX_PAYLOAD_SIZE P)
                (buffer_size (comm_buf s) + tag_size (coredata s) + nbytes)).
    { cbn [orb]. rewrite Z.eqb_refl. reflexivity. }
    cbn [orb].
    destruct (MAX_MESSAGES P
                <=? count (message_queue (comm_buf s) (queue_index (coredata s)))).
    { rewrite Z.eqb_refl. reflexivity. }
    destruct (count (message_queue (comm_buf s) (queue_index (coredata s)))
                =? wrap32 (-1)); [reflexivity|].
    cbn. rewrite (wrap32_small nbytes) by lia.
    rewrite (wrap32_small (buffer_size (comm_buf s) + tag_size (coredata s))) by lia.
    rewrite !memcpy_outside by lia. reflexivity.
Qed.

Lemma staging_stays_in_pool_witness :
  let s := core_view 0 once_registered in
  mem (bsp_put example_platform 1 0x100 0x4000 0 2 s) 0x100 = 7 /\
  mem (bsp_send example_platform 1 0x200 0x100 2 s) 0x100 = 7.
Proof.
  intros s.
  assert (Hout : ~ (payload_buf example_platform <= 0x100
                    < payload_buf example_platform + MAX_PAYLOAD_SIZE example_platform))
    by (cbn; lia).
  destruct (staging_stays_in_pool example_platform s 2 example_platform_ok
              ltac:(vm_compute; intuition congruence)
              ltac:(vm_compute; intuition congruence)
              ltac:(vm_compute; intuition congruence)
              0x100 Hout) as [Hput Hsend].
  split.
  - exact (eq_trans (Hput 1 0x100 0x4000 0) eq_refl).
  - exact (eq_trans (Hsend 1 0x200 0x100) eq_refl).
Defined.

(** Resolution reads the registration table and the pid only. *)
Lemma get_remote_addr_depends (P : platform) (p addr offset : Z) (s s' : state) :
  bsp_var_list (comm_buf s') = bsp_var_list (comm_buf s) ->
  pid (coredata s') = pid (coredata s) ->
  fst (_get_remote_addr P p addr offset s') = fst (_get_remote_addr P p addr offset s).
Proof.
  intros Hvl Hpid. unfold _get_remote_addr, own_column. rewrite Hvl, Hpid.
  destruct (find_slot (Z.to_nat (MAX_BSP_VARS P)) 0
              (fun slot => bsp_var_list (comm_buf s) slot (pid (coredata s))) addr);
    reflexivity.
Qed.

(** X9: The immediate transfers round-trip: bytes written to a registered
    variable of another core by [bsp_hpput] are what a following
    [bsp_hpget] of that variable, with the same offset, reads back, both
    calls resolve alike, and neither relays anything or touches the
    shared buffer. *)
Theorem hpput_hpget_round_trip :
  forall (P : platform) (p src var offset buf nbytes : Z) (s : state),
    fst (_get_remote_addr P p var offset s) <> 0 ->
    0 <= nbytes < 2 ^ 32 ->
    let s' := bsp_hpget P p var offset buf nbytes
                (bsp_hpput P p src var offset nbytes s) in
    (forall i, 0 <= i < nbytes -> mem s' (buf + i) = mem s (src + i)) /\
    comm_buf s' = comm_buf s /\
    coredata s' = coredata s /\
    host_out s' = host_out s.
Proof.
  intros P p src var offset buf nbytes s Hres Hn s'. subst s'.
  assert (Hput : bsp_hpput P p src var offset nbytes s =
                 with_mem (memcpy (fst (_get_remote_addr P p var offset s)) src nbytes
                             (mem s)) s).
  { unfold bsp_hpput.
    split_resolution P p var offset s; [|rewrite Hnf in Hres; cbn in Hres; congruence].
    cbn [fst] in *. destruct (Z.eqb_spec remote 0); [contradiction|].
    now rewrite wrap32_small by lia. }
  rewrite Hput.
  set (r := fst (_get_remote_addr P p var offset s)) in *.
  set (s1 := with_mem (memcpy r src nbytes (mem s)) s).
  assert (Hsame : _get_remote_addr P p var offset s1 = (r, s1)).
  { assert (Hr : fst (_get_remote_addr P p var offset s1) = r)
      by (apply get_remote_addr_depends; reflexivity).
    destruct (get_remote_addr_cases P p var offset s1) as [Hs | Hnf].
    - destruct (_get_remote_addr P p var offset s1) as [r' s2]. cbn in *. congruence.
    - rewrite Hnf in Hr. cbn in Hr. congruence. }
  unfold bsp_hpget. rewrite Hsame.
  destruct (Z.eqb_spec r 0); [contradiction|].
  rewrite wrap32_small by lia. cbn. repeat split.
  intros i Hi. rewrite memcpy_inside by exact Hi. now apply memcpy_inside.
Qed.

Lemma hpput_hpget_round_trip_witness :
  let s := core_view 0 once_registered in
  let s' := bsp_hpget example_platform 1 0x4000 0 0x700 2
              (bsp_hpput example_platform 1 0x100 0x4000 0 2 s) in
  mem s' 0x700 = 7 /\ mem s' 0x701 = 8.
Proof.
  intros s s'.
  destruct (hpput_hpget_round_trip example_platform 1 0x100 0x4000 0 0x700 2 s
              ltac:(vm_compute; congruence) ltac:(lia)) as (Hcopy & _).
  split.
  - exact (eq_trans (Hcopy 0 ltac:(lia)) eq_refl).
  - exact (eq_trans (Hcopy 1 ltac:(lia)) eq_refl).
Defined.

(** ** Receiving *)

Lemma pending_from_end (q : ebsp_message_queue) (me idx : Z) :
  wrap32 (count q) <= idx -> pending_from q me idx = [].
Proof.
  intros H. unfold pending_from.
  replace (Z.to_nat (wrap32 (count q) - idx)) with 0%nat by lia. reflexivity.
Qed.

Lemma pending_from_step (q : ebsp_message_queue) (me idx : Z) :
  idx < wrap32 (count q) ->
  pending_from q me idx =
    (if msg_pid (message q idx) =? me then [message q idx] else [])
    ++ pending_from q me (idx + 1).
Proof.
  intros H. unfold pending_from.
  replace (Z.to_nat (wrap32 (count q) - idx))
    with (S (Z.to_nat (wrap32 (count q) - (idx + 1)))) by lia.
  cbn [seq map filter]. rewrite Z.add_0_r.
  rewrite <- seq_shift, map_map.
  assert (Hext : map (fun n => message q (idx + Z.of_nat (S n)))
                     (seq 0 (Z.to_nat (wrap32 (count q) - (idx + 1))))
                 = map (fun n => message q (idx + 1 + Z.of_nat n))
                     (seq 0 (Z.to_nat (wrap32 (count q) - (idx + 1))))).
  { apply map_ext. intros n. f_equal. lia. }
  rewrite Hext. destruct (msg_pid (message q idx) =? me); reflexivity.
Qed.

(** The scan of [_next_queue_message] against the list of pending
    messages: it stops at the first of them, or at the end of the queue
    when there is none. *)
Lemma next_from_pending (q : ebsp_message_queue) (me : Z) (fuel : nat) :
  forall idx,
    0 <= idx ->
    wrap32 (count q) = count q ->
    fuel = Z.to_nat (count q - idx) ->
    match pending_from q me idx with
    | [] => next_from fuel q me idx = (None, Z.max idx (count q))
    | h :: t =>
        exists j, idx <= j < count q /\
                  next_from fuel q me idx = (Some h, j) /\
                  pending_from q me j = h :: t /\
                  pending_from q me (j + 1) = t
    end.
Proof.
  induction fuel as [|fuel IH]; intros idx Hidx Hw Hfuel.
  - rewrite pending_from_end by lia. cbn. f_equal. lia.
  - assert (Hlt : idx < count q) by lia.
    rewrite pending_from_step by lia.
    cbn [next_from]. rewrite Hw.
    destruct (Z.ltb_spec idx (count q)) as [_ | ?]; [|lia].
    assert (Hnext : wrap32 (idx + 1) = idx + 1).
    { apply wrap32_small. pose proof (wrap32_range (count q)). lia. }
    destruct (Z.eqb_spec (msg_pid (message q idx)) me) as [Hown | Hother]; cbn [negb app].
    + exists idx. repeat split; try lia.
      rewrite pending_from_step by lia.
      apply Z.eqb_eq in Hown. now rewrite Hown.
    + rewrite Hnext. specialize (IH (idx + 1) ltac:(lia) Hw ltac:(lia)).
      destruct (pending_from q me (idx + 1)) as [|h t].
      * rewrite IH. f_equal. lia.
      * destruct IH as (j & Hj & Hfound & Hat & Hafter).
        exists j. repeat split; trivial; lia.
Qed.

Lemma next_queue_message_pending (s : state) :
  let q := active_queue s in
  let cd := coredata s in
  0 <= message_index cd ->
  0 <= count q < 2 ^ 32 ->
  match own_pending s with
  | [] => _next_queue_message s =
            (None, with_coredata
                     (set_message_index (Z.max (message_index cd) (count q)) cd) s)
  | h :: t =>
      exists j, message_index cd <= j < count q /\
                _next_queue_message s
                  = (Some h, with_coredata (set_message_index j cd) s) /\
                pending_from q (pid cd) j = h :: t /\
                pending_from q (pid cd) (j + 1) = t
  end.
Proof.
  intros q cd Hidx Hcount.
  assert (Hw : wrap32 (count q) = count q) by (apply wrap32_small; lia).
  pose proof (next_from_pending q (pid cd) (remaining s) (message_index cd) Hidx Hw)
    as H.
  unfold remaining in H. fold q cd in H. rewrite Hw in H. specialize (H eq_refl).
  unfold own_pending. fold q cd. unfold _next_queue_message, remaining.
  fold q cd. rewrite Hw.
  destruct (pending_from q (pid cd) (message_index cd)) as [|h t].
  - now rewrite H.
  - destruct H as (j & Hj & Hfound & Hat & Hafter).
    exists j. rewrite Hfound. auto.
Qed.

(** X10: Messages are received first in, first out, per destination:
    [bsp_hpmove] returns the size, tag pointer and payload pointer of the
    first pending message for this core, whatever messages for other
    cores lie before it, and leaves pending exactly the messages after
    it; with none pending it returns -1 and none is pending afterwards.
    [bsp_move] moves the cursor in the same way. *)
Theorem hpmove_pops_head :
  forall (payload buffer_size : Z) (s : state),
    0 <= message_index (coredata s) < 2 ^ 31 - 1 ->
    0 <= count (active_queue s) < 2 ^ 31 - 1 ->
    match own_pending s with
    | [] =>
        fst (bsp_hpmove s) = (-1, None) /\
        own_pending (snd (bsp_hpmove s)) = [] /\
        own_pending (bsp_move payload buffer_size s) = []
    | h :: t =>
        fst (bsp_hpmove s) = (msg_nbytes h, Some (msg_tag h, msg_payload h)) /\
        own_pending (snd (bsp_hpmove s)) = t /\
        own_pending (bsp_move payload buffer_size s) = t
    end.
Proof.
  intros payload buffer_size s Hidx Hcount.
  pose proof (next_queue_message_pending s ltac:(lia) ltac:(lia)) as H.
  cbv zeta in H. unfold bsp_hpmove, bsp_move.
  destruct (own_pending s) as [|h t].
  - rewrite H. cbn [fst snd]. split; [reflexivity|].
    assert (Hnone : forall x : state,
               active_queue x = active_queue s ->
               pid (coredata x) = pid (coredata s) ->
               message_index (coredata x)
                 = wrap32 (Z.max (message_index (coredata s))
                             (count (active_queue s)) + 1) ->
               own_pending x = []).
    { intros x Hq Hp Hm. unfold own_pending. rewrite Hq, Hp, Hm.
      apply pending_from_end. rewrite !wrap32_small by lia. lia. }
    split; apply Hnone; reflexivity.
  - destruct H as (j & Hj & Hfound & _ & Hafter). rewrite Hfound.
    cbn [fst snd]. split; [reflexivity|].
    assert (Hrest : forall x : state,
               active_queue x = active_queue s ->
               pid (coredata x) = pid (coredata s) ->
               message_index (coredata x) = wrap32 (j + 1) ->
               own_pending x = t).
    { intros x Hq Hp Hm. unfold own_pending. rewrite Hq, Hp, Hm.
      rewrite wrap32_small by lia. exact Hafter. }
    split; [apply Hrest; reflexivity|].
    destruct (buffer_size =? 0); apply Hrest; reflexivity.
Qed.

(** X11: [bsp_get_tag] peeks: it reports the size of the first pending
    message for this core and copies [tag_size] bytes from its tag into
    the caller's buffer, and the message stays pending, so that a second
    call reports the same size; with none pending the status is -1. *)
Theorem get_tag_peeks :
  forall (tag : Z) (s : state),
    0 <= message_index (coredata s) < 2 ^ 31 - 1 ->
    0 <= count (active_queue s) < 2 ^ 31 - 1 ->
    let s' := snd (bsp_get_tag tag s) in
    match own_pending s with
    | [] => fst (bsp_get_tag tag s) = -1 /\ mem s' = mem s /\ own_pending s' = []
    | h :: t =>
        fst (bsp_get_tag tag s) = msg_nbytes h /\
        (forall i, 0 <= i < tag_size (coredata s) ->
                   mem s' (tag + i) = mem s (msg_tag h + i)) /\
        own_pending s' = h :: t /\
        fst (bsp_get_tag tag s') = msg_nbytes h
    end.
Proof.
  intros tag s Hidx Hcount s'.
  pose proof (next_queue_message_pending s ltac:(lia) ltac:(lia)) as H.
  cbv zeta in H. subst s'.
  destruct (own_pending s) as [|h t] eqn:Hpend.
  - unfold bsp_get_tag. rewrite H. cbn [fst snd]. repeat split.
    unfold own_pending.
    change (active_queue (with_coredata _ s)) with (active_queue s).
    cbn [coredata with_coredata message_index set_message_index pid].
    apply pending_from_end. rewrite wrap32_small by lia. lia.
  - destruct H as (j & Hj & Hfound & Hat & Hafter).
    set (s0 := with_coredata (set_message_index j (coredata s)) s) in *.
    set (s1 := with_mem (memcpy tag (msg_tag h) (tag_size (coredata s0)) (mem s0)) s0).
    assert (Hgt : bsp_get_tag tag s = (msg_nbytes h, s1)).
    { unfold bsp_get_tag. rewrite Hfound. reflexivity. }
    rewrite Hgt. cbn [fst snd].
    assert (Hs1 : own_pending s1 = h :: t) by exact Hat.
    repeat split.
    + intros i Hi. subst s1 s0. cbn. now apply memcpy_inside.
    + exact Hs1.
    + pose proof (next_queue_message_pending s1) as H1. cbv zeta in H1.
      rewrite Hs1 in H1.
      destruct H1 as (j' & _ & Hfound' & _).
      * subst s1 s0. cbn. lia.
      * change (active_queue s1) with (active_queue s). lia.
      * unfold bsp_get_tag. rewrite Hfound'. reflexivity.
Qed.

Lemma sint32_add_l (a b : Z) : sint32 (sint32 a + b) = sint32 (a + b).
Proof.
  unfold sint32.
  replace (((a + 2 ^ 31) mod 2 ^ 32 - 2 ^ 31 + b + 2 ^ 31))
    with ((a + 2 ^ 31) mod 2 ^ 32 + b) by lia.
  rewrite Z.add_mod_idemp_l by lia. do 2 f_equal. lia.
Qed.

Lemma sint32_idem (a : Z) : sint32 (sint32 a) = sint32 a.
Proof.
  pose proof (sint32_add_l a 0) as H. now rewrite !Z.add_0_r in H.
Qed.

Lemma qsize_loop_pending (q : ebsp_message_queue) (me : Z) (fuel : nat) :
  forall idx pp acc,
    0 <= idx ->
    wrap32 (count q) = count q ->
    fuel = Z.to_nat (count q - idx) ->
    sint32 acc = acc ->
    qsize_loop fuel q me idx pp acc
      = (Z.max idx (count q),
         pp + Z.of_nat (length (pending_from q me idx)),
         sint32 (acc + bytes_total (pending_from q me idx))).
Proof.
  induction fuel as [|fuel IH]; intros idx pp acc Hidx Hw Hfuel Hacc.
  - rewrite pending_from_end by lia. cbn [qsize_loop length bytes_total fold_right].
    rewrite !Z.add_0_r, Hacc. do 2 f_equal. lia.
  - assert (Hlt : idx < count q) by lia.
    rewrite pending_from_step by lia.
    cbn [qsize_loop]. rewrite Hw.
    destruct (Z.ltb_spec idx (count q)) as [_ | ?]; [|lia].
    assert (Hnext : wrap32 (idx + 1) = idx + 1).
    { apply wrap32_small. pose proof (wrap32_range (count q)). lia. }
    rewrite Hnext.
    destruct (msg_pid (message q idx) =? me); cbn [negb app].
    + rewrite IH by (trivial; try lia; apply sint32_idem).
      cbn [length bytes_total fold_right]. fold (bytes_total (pending_from q me (idx + 1))).
      rewrite sint32_add_l. f_equal; [f_equal; lia | f_equal; lia].
    + rewrite IH by (trivial; lia). f_equal. f_equal. lia.
Qed.

(** X12: [bsp_qsize] leaves in [*accum_bytes] the sum of the sizes of all
    pending messages for this core, as an [int], whatever messages for
    other cores lie between them; it leaves 0 in [*packets]; and it uses
    the cursor of the receive functions for its scan, so that no message
    is pending after it. *)
Theorem qsize_totals_and_consumes :
  forall (s : state),
    0 <= message_index (coredata s) < 2 ^ 31 - 1 ->
    0 <= count (active_queue s) < 2 ^ 31 - 1 ->
    fst (bsp_qsize s) = (0, sint32 (bytes_total (own_pending s))) /\
    own_pending (snd (bsp_qsize s)) = [] /\
    fst (bsp_hpmove (snd (bsp_qsize s))) = (-1, None).
Proof.
  intros s Hidx Hcount.
  assert (Hw : wrap32 (count (active_queue s)) = count (active_queue s))
    by (apply wrap32_small; lia).
  assert (Hq : bsp_qsize s
               = ((0, sint32 (bytes_total (own_pending s))),
                  with_coredata
                    (set_message_index
                       (Z.max (message_index (coredata s)) (count (active_queue s)))
                       (coredata s)) s)).
  { unfold bsp_qsize.
    rewrite (qsize_loop_pending (active_queue s) (pid (coredata s)) (remaining s)
               (message_index (coredata s)) 0 0); trivial; try lia.
    unfold remaining. now rewrite Hw. }
  rewrite Hq. cbn [fst snd].
  set (s1 := with_coredata _ s).
  assert (Hnone : own_pending s1 = []).
  { unfold own_pending. change (active_queue s1) with (active_queue s).
    subst s1. cbn [coredata with_coredata message_index set_message_index pid].
    apply pending_from_end. rewrite Hw. lia. }
  repeat split; trivial.
  pose proof (next_queue_message_pending s1) as H. cbv zeta in H.
  rewrite Hnone in H. unfold bsp_hpmove. rewrite H.
  - reflexivity.
  - subst s1. cbn. lia.
  - change (active_queue s1) with (active_queue s). lia.
Qed.

(** ** Sending *)

(** What an admitted [bsp_send] leaves in the queue and in memory. *)
Lemma bsp_send_effect (P : platform) (p tag payload nbytes : Z) (s : state) :
  let cd := coredata s in
  let q := active_queue s in
  let bs := buffer_size (comm_buf s) in
  wrap32 (bs + tag_size cd + nbytes) <= MAX_PAYLOAD_SIZE P ->
  0 <= count q < MAX_MESSAGES P ->
  MAX_MESSAGES P < 2 ^ 32 ->
  let s' := bsp_send P p tag payload nbytes s in
  let tag_ptr := payload_buf P + bs in
  let payload_ptr := payload_buf P + wrap32 (bs + tag_size cd) in
  active_queue s'
    = mk_message_queue (wrap32 (count q + 1))
        (upd (message q) (count q)
           (mk_message_header p tag_ptr payload_ptr nbytes)) /\
  mem s' = memcpy payload_ptr payload (wrap32 nbytes)
             (memcpy tag_ptr tag (tag_size cd) (mem s)).
Proof.
  intros cd q bs Hpool Hcount Hmax s'. subst s'. unfold bsp_send.
  fold cd. change (message_queue (comm_buf s) (queue_index cd)) with q.
  fold bs.
  destruct (Z.ltb_spec (MAX_PAYLOAD_SIZE P) (wrap32 (bs + tag_size cd + nbytes)));
    [lia|].
  destruct (Z.leb_spec (MAX_MESSAGES P) (count q)); [lia|].
  cbn [orb]. rewrite wrap32_minus_one.
  destruct (Z.eqb_spec (count q) (2 ^ 32 - 1)); [lia|].
  unfold active_queue. cbn. unfold upd. rewrite !Z.eqb_refl. cbn.
  split; reflexivity.
Qed.

Lemma pending_from_append (q : ebsp_message_queue) (h : ebsp_message_header)
    (me : Z) (n : nat) :
  forall idx,
    0 <= idx <= count q ->
    count q + 1 < 2 ^ 32 ->
    n = Z.to_nat (count q - idx) ->
    pending_from (mk_message_queue (wrap32 (count q + 1)) (upd (message q) (count q) h))
                 me idx
    = pending_from q me idx ++ (if msg_pid h =? me then [h] else []).
Proof.
  set (q' := mk_message_queue _ _).
  assert (Hc' : wrap32 (count q') = wrap32 (count q + 1)).
  { subst q'. cbn [count]. unfold wrap32. now rewrite Z.mod_mod by lia. }
  induction n as [|n IH]; intros idx Hidx Hfit Hn.
  - assert (idx = count q) by lia. subst idx.
    rewrite (wrap32_small (count q + 1)) in Hc' by lia.
    rewrite (pending_from_step q') by lia.
    rewrite (pending_from_end q') by lia.
    rewrite (pending_from_end q) by (rewrite wrap32_small; lia).
    subst q'. cbn [message]. unfold upd. rewrite Z.eqb_refl.
    now rewrite app_nil_r.
  - rewrite (wrap32_small (count q + 1)) in Hc' by lia.
    rewrite (pending_from_step q') by lia.
    rewrite (pending_from_step q) by (rewrite wrap32_small; lia).
    rewrite IH by lia. rewrite app_assoc. do 2 f_equal.
    subst q'. cbn [message]. unfold upd.
    destruct (Z.eqb_spec idx (count q)); [lia | reflexivity].
Qed.

(** X13: An admitted [bsp_send] to [p] appends its header to the messages
    pending for [p] and changes the pending messages of no other core:
    for a core [reader] reading the same queue of the pair, whose cursor
    has not passed the end of the queue, the pending list after the send
    is the one before it followed by the new header when [p] is the
    reader's pid, and the one before it otherwise. *)
Theorem send_appends_to_pending :
  forall (P : platform) (p tag payload nbytes : Z) (s : state)
         (reader : ebsp_core_data),
    let cd := coredata s in
    let q := active_queue s in
    let bs := buffer_size (comm_buf s) in
    wrap32 (bs + tag_size cd + nbytes) <= MAX_PAYLOAD_SIZE P ->
    0 <= count q < MAX_MESSAGES P ->
    MAX_MESSAGES P < 2 ^ 31 ->
    queue_index reader = queue_index cd ->
    0 <= message_index reader <= count q ->
    own_pending (with_coredata reader (bsp_send P p tag payload nbytes s))
    = own_pending (with_coredata reader s)
      ++ (if p =? pid reader
          then [mk_message_header p (payload_buf P + bs)
                  (payload_buf P + wrap32 (bs + tag_size cd)) nbytes]
          else []).
Proof.
  intros P p tag payload nbytes s reader cd q bs Hpool Hcount Hmax Hqi Hidx.
  destruct (bsp_send_effect P p tag payload nbytes s Hpool Hcount ltac:(lia))
    as (Hq & _).
  fold cd q bs in Hq.
  set (s' := bsp_send P p tag payload nbytes s) in *.
  assert (Hq' : active_queue (with_coredata reader s') = active_queue s').
  { unfold active_queue. cbn. rewrite Hqi. subst s'.
    now rewrite bsp_send_coredata. }
  assert (Hq0 : active_queue (with_coredata reader s) = q).
  { unfold active_queue. cbn. now rewrite Hqi. }
  unfold own_pending. rewrite Hq', Hq0, Hq.
  cbn [coredata with_coredata].
  rewrite (pending_from_append q _ (pid reader) _ (message_index reader) Hidx
             ltac:(lia) eq_refl).
  reflexivity.
Qed.


Lemma hpmove_pops_head_witness :
  let s := core_view 1 after_mixed_sends in
  fst (bsp_hpmove s) = (2, Some (0x8f001000, 0x8f001001)) /\
  own_pending (snd (bsp_hpmove s)) = [mk_message_header 1 0x8f001003 0x8f001004 1] /\
  own_pending (bsp_move 0x900 4 s) = [mk_message_header 1 0x8f001003 0x8f001004 1].
Proof.
  intros s.
  pose proof (hpmove_pops_head 0x900 4 s
                ltac:(vm_compute; intuition congruence)
                ltac:(vm_compute; intuition congruence)) as H.
  assert (Hp : own_pending s
               = [mk_message_header 1 0x8f001000 0x8f001001 2;
                  mk_message_header 1 0x8f001003 0x8f001004 1])
    by (vm_compute; reflexivity).
  rewrite Hp in H. exact H.
Defined.

Lemma get_tag_peeks_witness :
  let s := core_view 1 after_mixed_sends in
  let s' := snd (bsp_get_tag 0x900 s) in
  fst (bsp_get_tag 0x900 s) = 2 /\
  mem s' 0x900 = 65 /\
  fst (bsp_get_tag 0x900 s') = 2.
Proof.
  intros s s'.
  pose proof (get_tag_peeks 0x900 s
                ltac:(vm_compute; intuition congruence)
                ltac:(vm_compute; intuition congruence)) as H.
  assert (Hp : own_pending s
               = [mk_message_header 1 0x8f001000 0x8f001001 2;
                  mk_message_header 1 0x8f001003 0x8f001004 1])
    by (vm_compute; reflexivity).
  cbv zeta in H. rewrite Hp in H. destruct H as (Hstatus & Htag & _ & Hagain).
  split; [|split].
  - exact Hstatus.
  - exact (eq_trans (Htag 0 ltac:(vm_compute; intuition congruence)) eq_refl).
  - exact Hagain.
Defined.

Lemma qsize_totals_and_consumes_witness :
  let s := core_view 1 after_mixed_sends in
  fst (bsp_qsize s) = (0, 3) /\
  fst (bsp_hpmove (snd (bsp_qsize s))) = (-1, None).
Proof.
  intros s.
  destruct (qsize_totals_and_consumes s
              ltac:(vm_compute; intuition congruence)
              ltac:(vm_compute; intuition congruence)) as (Hsize & _ & Hnone).
  split.
  - exact (eq_trans Hsize eq_refl).
  - exact Hnone.
Defined.

Lemma send_appends_to_pending_witness :
  let s := core_view 0 after_send in
  own_pending (with_coredata core1 (bsp_send example_platform 1 0x201 0x102 1 s))
  = [mk_message_header 1 0x8f001000 0x8f001001 2;
     mk_message_header 1 0x8f001002 0x8f001003 1] /\
  own_pending (with_coredata core1 (bsp_send example_platform 0 0x201 0x102 1 s))
  = [mk_message_header 1 0x8f001000 0x8f001001 2].
Proof.
  intros s.
  split.
  - exact (eq_trans
             (send_appends_to_pending example_platform 1 0x201 0x102 1 s core1
                ltac:(vm_compute; intuition congruence)
                ltac:(vm_compute; intuition congruence)
                ltac:(vm_compute; intuition congruence)
                eq_refl
                ltac:(vm_compute; intuition congruence))
             eq_refl).
  - exact (eq_trans
             (send_appends_to_pending example_platform 0 0x201 0x102 1 s core1
                ltac:(vm_compute; intuition congruence)
                ltac:(vm_compute; intuition congruence)
                ltac:(vm_compute; intuition congruence)
                eq_refl
                ltac:(vm_compute; intuition congruence))
             eq_refl).
Defined.


(** ** Synchronisation in every interleaving *)

Lemma run_steps_left (sched : list nat) :
  forall (mc mc' : machine) (tr : list sync_event),
    run sched mc = Some (tr, mc') ->
    total_steps_left mc = (length sched + total_steps_left mc')%nat.
Proof.
  induction sched as [|k sched IH]; intros mc mc' tr Hrun; cbn in Hrun.
  - inversion Hrun; subst. reflexivity.
  - destruct (core_step k mc) as [[evs mc1]|] eqn:Hstep; [|discriminate].
    destruct (run sched mc1) as [[evs' mc2]|] eqn:Hrest; [|discriminate].
    inversion Hrun; subst.
    rewrite (core_step_steps_left k mc mc1 evs Hstep).
    rewrite (IH mc1 mc' evs' Hrest). reflexivity.
Qed.

Lemma can_step_or_done (mc : machine) :
  all_at PcDone mc \/ exists k evs mc', core_step k mc = Some (evs, mc').
Proof.
  destruct (cores mc) as [|c0 l] eqn:Hcores.
  - left. unfold all_at. rewrite Hcores. constructor.
  - destruct (furthest_behind (cores mc)) as (k & c & Hk & Hmin);
      [rewrite Hcores; discriminate|].
    destruct (sync_pc_done_dec (snd c)) as [Hd | Hnd].
    + left. eapply all_done_of_least; eassumption.
    + right. exists k. eapply least_can_step; eassumption.
Qed.

(** X15: The barrier protocol of [bsp_sync] neither blocks nor runs on: after
    any run of the cores, in any interleaving and from any state, either
    every core has returned from [bsp_sync] or some core can take a step;
    and the number of steps taken plus the number of steps the cores
    still have to take is the number they had to take at the start,
    which is [2 * request_counter + 6] for a core entering [bsp_sync].
    So every interleaving that completes has the same length. *)
Theorem sync_never_blocks :
  forall (mc mc' : machine) (sched : list nat) (tr : list sync_event),
    run sched mc = Some (tr, mc') ->
    (length sched + total_steps_left mc')%nat = total_steps_left mc /\
    (all_at PcDone mc' \/ exists k evs mc'', core_step k mc' = Some (evs, mc'')) /\
    (all_at PcDone mc' <-> length sched = total_steps_left mc).
Proof.
  intros mc mc' sched tr Hrun.
  pose proof (run_steps_left sched mc mc' tr Hrun) as Hlen.
  split; [lia|]. split; [apply can_step_or_done|].
  unfold all_at. rewrite <- no_steps_left_done.
  fold (total_steps_left mc'). lia.
Qed.

Lemma sync_never_blocks_witness :
  (length exchange_schedule + 0)%nat = total_steps_left (machine_of exchange) /\
  length exchange_schedule = 18%nat.
Proof.
  assert (Hrun : run exchange_schedule (machine_of exchange)
                 = Some (fst exchange_result, snd exchange_result))
    by (apply run_result; vm_compute; reflexivity).
  destruct (sync_never_blocks _ _ _ _ Hrun) as (Hsum & _ & _).
  split; [|reflexivity].
  exact (eq_trans (f_equal (fun n => (length exchange_schedule + n)%nat)
                     (eq_refl : 0%nat = total_steps_left (snd exchange_result)))
                  Hsum).
Defined.

Lemma Forall2_set_nth {A B : Type} (R : A -> B -> Prop) (k : nat) (y' : B) :
  forall (l1 : list A) (l2 : list B),
    Forall2 R l1 l2 ->
    (forall x y, nth_error l1 k = Some x -> nth_error l2 k = Some y -> R x y -> R x y') ->
    Forall2 R l1 (set_nth k y' l2).
Proof.
  induction k as [|k IH]; intros l1 l2 H Hk.
  - destruct H as [|x y l1 l2 Hxy Hrest]; cbn; constructor; trivial.
    apply (Hk x y); trivial.
  - destruct H as [|x y l1 l2 Hxy Hrest]; cbn; constructor; trivial.
    apply IH; trivial.
Qed.

Lemma local_step_core_data reqs a cd pc rs cd' pc' (cd0 : ebsp_core_data) :
  local_step reqs a cd pc rs cd' pc' ->
  core_data_at cd0 (cd, pc) -> core_data_at cd0 (cd', pc').
Proof.
  unfold core_data_at. destruct 1; cbn; intros Hat; subst; reflexivity.
Qed.

Lemma core_step_core_data (cds0 : list ebsp_core_data) (k : nat) (mc mc' : machine)
    (evs : list sync_event) :
  core_step k mc = Some (evs, mc') ->
  Forall2 core_data_at cds0 (cores mc) ->
  Forall2 core_data_at cds0 (cores mc').
Proof.
  intros Hstep Hinv.
  destruct (core_step_local k mc mc' evs Hstep)
    as (cd & pc & cd' & pc' & rs & Hk & Hcores' & _ & _ & _ & Hloc).
  rewrite Hcores'. apply Forall2_set_nth; trivial.
  intros cd0 c _ Hc Hat. rewrite Hk in Hc. inversion Hc; subst c.
  eapply local_step_core_data; eassumption.
Qed.

Lemma sync_tail_shared_keeps (cd : ebsp_core_data) (cb : ebsp_comm_buf) :
  message_queue (sync_tail_shared cd cb) = message_queue cb /\
  bsp_var_list (sync_tail_shared cd cb) = bsp_var_list cb.
Proof.
  unfold sync_tail_shared.
  destruct (negb (var_pushed cd =? 0) && (pid cd =? 0)); split; reflexivity.
Qed.

Lemma core_step_shared (k : nat) (mc mc' : machine) (evs : list sync_event) :
  core_step k mc = Some (evs, mc') ->
  message_queue (shared mc') = message_queue (shared mc) /\
  bsp_var_list (shared mc') = bsp_var_list (shared mc).
Proof.
  unfold core_step. intros H.
  destruct (nth_error (cores mc) k) as [[cd pc]|]; [|discriminate].
  destruct pc as [| | i | | i | |];
    repeat match type of H with
           | context [if ?b then _ else _] => destruct b
           end;
    inversion H; subst; cbn [shared set_core];
    try (split; reflexivity); apply sync_tail_shared_keeps.
Qed.

Lemma run_core_data (cds0 : list ebsp_core_data) (sched : list nat) :
  forall (mc mc' : machine) (tr : list sync_event),
    run sched mc = Some (tr, mc') ->
    Forall2 core_data_at cds0 (cores mc) ->
    Forall2 core_data_at cds0 (cores mc') /\
    message_queue (shared mc') = message_queue (shared mc) /\
    bsp_var_list (shared mc') = bsp_var_list (shared mc).
Proof.
  induction sched as [|k sched IH]; intros mc mc' tr Hrun Hinv; cbn in Hrun.
  - inversion Hrun; subst. auto.
  - destruct (core_step k mc) as [[evs mc1]|] eqn:Hstep; [|discriminate].
    destruct (run sched mc1) as [[evs' mc2]|] eqn:Hrest; [|discriminate].
    inversion Hrun; subst.
    destruct (core_step_shared k mc mc1 evs Hstep) as (Hq1 & Hv1).
    destruct (IH mc1 mc' evs' Hrest) as (Hcd & Hq & Hv).
    + eapply core_step_core_data; eassumption.
    + rewrite Hq, Hv. auto.
Qed.



(** ** One core *)

Lemma run_single_schedule (sched : list nat) :
  forall (mc mc' : machine) (tr : list sync_event),
    length (cores mc) = 1%nat ->
    run sched mc = Some (tr, mc') ->
    sched = repeat 0%nat (length sched).
Proof.
  induction sched as [|k sched IH]; intros mc mc' tr Hone Hrun; [reflexivity|].
  cbn in Hrun.
  destruct (core_step k mc) as [[evs mc1]|] eqn:Hstep; [|discriminate].
  destruct (run sched mc1) as [[evs' mc2]|] eqn:Hrest; [|discriminate].
  destruct (core_step_local k mc mc1 evs Hstep)
    as (cd & pc & cd' & pc' & rs & Hk & Hcores' & _).
  assert (Hlt : (k < 1)%nat).
  { rewrite <- Hone. apply nth_error_Some. congruence. }
  assert (k = 0%nat) by lia. subst k.
  cbn [length repeat]. f_equal.
  apply (IH mc1 mc2 evs'); trivial.
  rewrite Hcores', set_nth_length. exact Hone.
Qed.

(** X17: On a group of one core the interleaving model and the sequential
    reading of [bsp_sync] agree: every run that takes the core from the
    call of [bsp_sync] to its return ends in the core data, shared
    buffer and memory that [bsp_sync] gives. *)
Theorem single_core_sync_is_bsp_sync :
  forall (s : state) (sched : list nat) (tr : list sync_event) (mc' : machine),
    run sched (mk_machine [(coredata s, PcRunning)] (comm_buf s) (mem s))
      = Some (tr, mc') ->
    all_at PcDone mc' ->
    mc' = mk_machine [(coredata (bsp_sync s), PcDone)]
                     (comm_buf (bsp_sync s)) (mem (bsp_sync s)).
Proof.
  intros s sched tr mc' Hrun Hdone.
  set (mc := mk_machine [(coredata s, PcRunning)] (comm_buf s) (mem s)) in *.
  set (R := Z.to_nat (request_counter (coredata s))).
  pose proof (run_steps_left sched mc mc' tr Hrun) as Hlen.
  assert (Hzero : total_steps_left mc' = 0%nat)
    by (apply no_steps_left_done; exact Hdone).
  assert (Hsched : sched = repeat 0%nat (2 * R + 6)).
  { rewrite (run_single_schedule sched mc mc' tr eq_refl Hrun).
    f_equal. rewrite Hzero in Hlen. rewrite Nat.add_0_r in Hlen.
    rewrite <- Hlen. unfold total_steps_left, mc, steps_left. cbn. fold R. lia. }
  destruct (bsp_sync_single_core s) as (tr' & Hseq). fold R mc in Hseq.
  assert (Hsame : ([0; 0] ++ repeat 0 R ++ [0; 0] ++ repeat 0 R ++ [0; 0])%nat
                  = repeat 0%nat (2 * R + 6)).
  { replace (2 * R + 6)%nat with (2 + (R + (2 + (R + 2))))%nat by lia.
    rewrite !repeat_app. reflexivity. }
  rewrite Hsame, <- Hsched, Hrun in Hseq. now inversion Hseq.
Qed.

Lemma single_core_sync_is_bsp_sync_witness :
  let s := core_view 0 exchange in
  let r := match run (repeat 0%nat 10)
                     (mk_machine [(coredata s, PcRunning)] (comm_buf s) (mem s)) with
           | Some r => r
           | None => ([], mk_machine [] (comm_buf s) (mem s))
           end in
  ram (snd r) 0x700 = mem (bsp_sync s) 0x700 /\
  ram (snd r) 0x80905000 = 7.
Proof.
  intros s r.
  assert (Hrun : run (repeat 0%nat 10)
                     (mk_machine [(coredata s, PcRunning)] (comm_buf s) (mem s))
                 = Some (fst r, snd r))
    by (apply run_result; vm_compute; reflexivity).
  assert (Hdone : all_at PcDone (snd r))
    by (apply all_at_done; vm_compute; reflexivity).
  pose proof (single_core_sync_is_bsp_sync s _ _ _ Hrun Hdone) as H.
  split.
  - exact (f_equal (fun mc => ram mc 0x700) H).
  - exact (eq_trans (f_equal (fun mc => ram mc 0x80905000) H) eq_refl).
Defined.

(** ** Across supersteps *)

Lemma exec_call_tag_sizes (P : platform) (c : bsp_call) (s : state) :
  tag_size (coredata (exec_call P c s)) = tag_size (coredata s) /\
  tag_size_next (coredata (exec_call P c s))
    = match c with
      | call_set_tagsize tag_bytes => wrap32 tag_bytes
      | _ => tag_size_next (coredata s)
      end.
Proof.
  destruct c; cbn [exec_call];
    unfold bsp_push_reg, bsp_put, bsp_hpput, bsp_get, bsp_hpget, bsp_set_tagsize,
           bsp_send, bsp_qsize, bsp_get_tag, bsp_move, bsp_hpmove,
           _get_remote_addr, _next_queue_message, _pop_queue_message;
    repeat (match goal with
            | |- context [find_slot ?a ?b ?c ?d] => destruct (find_slot a b c d)
            | |- context [next_from ?a ?b ?c ?d] =>
                destruct (next_from a b c d) as [[?|] ?]
            | |- context [qsize_loop ?a ?b ?c ?d ?e ?f] =>
                destruct (qsize_loop a b c d e f) as [[? ?] ?]
            | |- context [if ?b then _ else _] => destruct b
            end; cbn);
    cbn; auto.
Qed.

(** X18: The tag size is fixed within a superstep and changes at [bsp_sync]:
    whatever a core calls between two synchronisations, [bsp_set_tagsize]
    included, its tag size stays what it was, and after the next
    [bsp_sync] it is the size of the last [bsp_set_tagsize] of the
    superstep, or the size requested before when there was none. *)
Theorem tag_size_changes_at_sync :
  forall (P : platform) (cs : list bsp_call) (s : state),
    let s' := fold_left (fun s c => exec_call P c s) cs s in
    tag_size (coredata s') = tag_size (coredata s) /\
    tag_size (coredata (bsp_sync s'))
      = requested_tagsize cs (tag_size_next (coredata s)).
Proof.
  intros P cs. unfold requested_tagsize.
  induction cs as [|c cs IH]; intros s; cbv zeta; cbn [fold_left].
  - split; [reflexivity|]. unfold bsp_sync, sync_tail_core. cbn.
    destruct (negb (var_pushed (coredata s) =? 0)); reflexivity.
  - destruct (exec_call_tag_sizes P c s) as (Hts & Hnext).
    destruct (IH (exec_call P c s)) as (H1 & H2). cbv zeta in H1, H2.
    rewrite H1, H2, Hts, Hnext. split; [reflexivity|].
    destruct c; reflexivity.
Qed.

(** X19: Only core 0 advances the registration slot. A core registers [v1],
    synchronises and registers [v2]; both registrations are accepted. On
    core 0 they go to consecutive slots of the table. On any other core,
    running [bsp_sync] leaves the slot counter where it was, so the
    second registration goes to the slot of the first and replaces it. *)
Theorem registration_slot_advances_with_core0 :
  forall (P : platform) (v1 n1 v2 n2 : Z) (s : state),
    let me := pid (coredata s) in
    let k := bsp_var_counter (comm_buf s) in
    var_pushed (coredata s) = 0 ->
    0 <= k -> k + 1 < MAX_BSP_VARS P -> MAX_BSP_VARS P < 2 ^ 31 ->
    let s2 := bsp_push_reg P v2 n2 (bsp_sync (bsp_push_reg P v1 n1 s)) in
    host_out s2 = host_out s /\
    (me = 0 ->
     bsp_var_counter (comm_buf s2) = k + 1 /\
     bsp_var_list (comm_buf s2) k me = v1 /\
     bsp_var_list (comm_buf s2) (k + 1) me = v2) /\
    (me <> 0 ->
     bsp_var_counter (comm_buf s2) = k /\
     bsp_var_list (comm_buf s2) k me = v2).
Proof.
  intros P v1 n1 v2 n2 s me k Hfresh Hk Hroom Hmax s2.
  set (s1 := with_coredata (set_var_pushed 1 (coredata s))
               (with_comm_buf
                  (set_bsp_var_list (upd2 (bsp_var_list (comm_buf s)) k me v1)
                     (comm_buf s)) s)).
  assert (Hfirst : bsp_push_reg P v1 n1 s = s1).
  { unfold bsp_push_reg. rewrite Hfresh. cbn [Z.eqb negb]. fold k.
    destruct (Z.eqb_spec k (MAX_BSP_VARS P)); [lia | reflexivity]. }
  set (t := bsp_sync s1).
  assert (Hsync : var_pushed (coredata t) = 0) by reflexivity.
  assert (Hpid : pid (coredata t) = me) by reflexivity.
  assert (Hlist : bsp_var_list (comm_buf t)
                  = upd2 (bsp_var_list (comm_buf s)) k me v1).
  { unfold t, bsp_sync, sync_tail_shared. cbn. fold me.
    destruct (me =? 0); reflexivity. }
  assert (Hout : host_out t = host_out s) by reflexivity.
  assert (Hcounter : bsp_var_counter (comm_buf t) = if me =? 0 then k + 1 else k).
  { unfold t, bsp_sync, sync_tail_shared. cbn. fold me k.
    destruct (me =? 0); cbn; [apply sint32_small; lia | reflexivity]. }
  assert (Hsecond : s2 = with_coredata (set_var_pushed 1 (coredata t))
                           (with_comm_buf
                              (set_bsp_var_list
                                 (upd2 (bsp_var_list (comm_buf t))
                                    (if me =? 0 then k + 1 else k) me v2)
                                 (comm_buf t)) t)).
  { unfold s2. rewrite Hfirst. fold t. clearbody t.
    unfold bsp_push_reg. rewrite Hsync. cbn [Z.eqb negb]. rewrite Hcounter, Hpid.
    destruct (Z.eqb_spec (if me =? 0 then k + 1 else k) (MAX_BSP_VARS P)) as [E|_];
      [destruct (me =? 0); lia | reflexivity]. }
  clearbody s2 t. subst s2. cbn. rewrite Hlist, Hcounter.
  split; [exact Hout|].
  split; intros Hme.
  - destruct (Z.eqb_spec me 0); [|contradiction].
    split; [reflexivity|]. split.
    + rewrite upd2_other by lia. apply upd2_same.
    + apply upd2_same.
  - destruct (Z.eqb_spec me 0); [contradiction|].
    split; [reflexivity|]. apply upd2_same.
Qed.

Lemma registration_slot_advances_with_core0_witness :
  let r0 := bsp_push_reg example_platform 0x6000 4
              (bsp_sync (bsp_push_reg example_platform 0x4000 4
                           (core_view 0 example_system))) in
  let r1 := bsp_push_reg example_platform 0x6000 4
              (bsp_sync (bsp_push_reg example_platform 0x5000 4
                           (core_view 1 example_system))) in
  (bsp_var_list (comm_buf r0) 0 0 = 0x4000 /\ bsp_var_list (comm_buf r0) 1 0 = 0x6000) /\
  (bsp_var_list (comm_buf r1) 0 1 = 0x6000 /\ bsp_var_counter (comm_buf r1) = 0).
Proof.
  intros r0 r1.
  destruct (registration_slot_advances_with_core0 example_platform 0x4000 4 0x6000 4
              (core_view 0 example_system)
              eq_refl ltac:(vm_compute; congruence) ltac:(vm_compute; congruence)
              ltac:(vm_compute; congruence)) as (_ & Hzero & _).
  destruct (registration_slot_advances_with_core0 example_platform 0x5000 4 0x6000 4
              (core_view 1 example_system)
              eq_refl ltac:(vm_compute; congruence) ltac:(vm_compute; congruence)
              ltac:(vm_compute; congruence)) as (_ & _ & Hother).
  split.
  - exact (proj2 (Hzero eq_refl)).
  - destruct (Hother ltac:(vm_compute; congruence)) as (Hc & Hl). split; assumption.
Defined.

Lemma filter_partition_perm {A : Type} (f : A -> bool) (l : list A) :
  Permutation (filter (fun x => negb (f x)) l ++ filter f l) l.
Proof.
  induction l as [|x l IH]; [constructor|].
  cbn [filter]. destruct (f x); cbn [negb app].
  - apply Permutation_sym. apply Permutation_cons_app.
    apply Permutation_sym. exact IH.
  - now constructor.
Qed.

Lemma core_data_start (l : list (ebsp_core_data * sync_pc)) :
  Forall (fun c => snd c = PcRunning) l ->
  Forall2 core_data_at (map fst l) l.
Proof.
  induction 1 as [|[cd pc] l Hpc Hl IH]; cbn; constructor; trivial.
  cbn in Hpc. subst pc. reflexivity.
Qed.

Lemma sync_tail_core_no_requests (cd : ebsp_core_data) :
  request_counter (sync_tail_core cd) = 0.
Proof.
  unfold sync_tail_core. cbn.
  destruct (negb (var_pushed cd =? 0)); reflexivity.
Qed.

Lemma done_cores_no_requests (mc0 mc : machine) (sched : list nat)
    (tr : list sync_event) :
  all_at PcRunning mc0 ->
  run sched mc0 = Some (tr, mc) ->
  all_at PcDone mc ->
  Forall (fun c => request_counter (fst c) = 0) (cores mc).
Proof.
  intros Hstart Hrun Hdone.
  destruct (run_core_data (map fst (cores mc0)) sched mc0 mc tr Hrun
              (core_data_start _ Hstart)) as (Hcd & _).
  unfold all_at in Hdone. revert Hcd Hdone.
  generalize (map fst (cores mc0)). generalize (cores mc).
  induction l as [|c l IH]; intros l0 Hcd Hdone; [constructor|].
  inversion Hcd as [|cd0 ? l0' ? Hat Hrest]; subst.
  inversion Hdone as [|? ? Hpc Hdone']; subst.
  constructor; [|eapply IH; eassumption].
  unfold core_data_at in Hat. rewrite Hpc in Hat. cbn in Hat.
  rewrite Hat. apply sync_tail_core_no_requests.
Qed.

Lemma reenter_running (mc : machine) : all_at PcRunning (reenter mc).
Proof.
  unfold all_at, reenter. cbn [cores].
  induction (cores mc) as [|c l IH]; cbn; constructor; trivial.
Qed.

Lemma phase_done_none (puts : bool) (i : Z) (cd : ebsp_core_data) (cb : ebsp_comm_buf) :
  i <= 0 -> phase_done puts i cd cb = [].
Proof.
  intros Hi. unfold phase_done.
  replace (Z.to_nat i) with 0%nat by lia. reflexivity.
Qed.

(** With no request pending on any core, a synchronisation copies
    nothing. *)
Lemma run_without_requests (mc0 mc : machine) (sched : list nat)
    (tr : list sync_event) :
  all_at PcRunning mc0 ->
  Forall (fun c => request_counter (fst c) = 0) (cores mc0) ->
  run sched mc0 = Some (tr, mc) ->
  tr = [] /\ ram mc = ram mc0.
Proof.
  intros Hstart Hnone Hrun.
  pose proof (run_preserves mc0 sched mc0 mc [] tr (sync_inv_start mc0 Hstart) Hrun)
    as Hinv.
  cbn [app] in Hinv.
  destruct Hinv as [Hlen _ Hram Hcores _ _].
  assert (Hempty : tr = []).
  { destruct tr as [|x tr']; [reflexivity|]. exfalso.
    destruct (run_events_valid sched mc0 mc _ Hrun) as (_ & Hvalid).
    inversion Hvalid as [|? ? Hx _]; subst.
    destruct (nth_error (cores mc) (ev_core x)) as [c|] eqn:Hc;
      [|apply nth_error_None in Hc; lia].
    destruct (Hcores _ c Hc) as (cd0 & Hk0 & Hev & _ & Hidx).
    rewrite Forall_forall in Hnone.
    pose proof (Hnone _ (nth_error_In _ _ Hk0)) as Hrc. cbn in Hrc.
    pose proof (in_events_of x (x :: tr') (or_introl eq_refl)) as Hin.
    rewrite Hev in Hin.
    destruct (snd c); cbn [expected_events loop_index_ok] in Hin, Hidx;
      rewrite ?Hrc in Hin, Hidx;
      rewrite ?phase_done_none in Hin by lia; exact Hin. }
  split; [exact Hempty|]. rewrite Hram, Hempty. reflexivity.
Qed.

(** X20: [bsp_sync] carries out each pending request once. When the
    cores synchronise, in any interleaving, the copies core [k] has made
    when all cores have returned are its pending requests, each of them
    once; every copy made is some core's; memory is the memory on entry
    with these copies applied. If the cores then synchronise again with
    nothing issued in between, no copy is made and memory stays as the
    first synchronisation left it. *)
Theorem sync_applies_requests_once :
  forall (mc0 mc1 : machine) (sched : list nat) (tr : list sync_event),
    all_at PcRunning mc0 ->
    run sched mc0 = Some (tr, mc1) ->
    all_at PcDone mc1 ->
    ram mc1 = replay tr (ram mc0) /\
    (forall k cd,
        nth_error (cores mc0) k = Some (cd, PcRunning) ->
        Permutation (events_of k tr) (pending cd (shared mc0))) /\
    (forall e, In e tr ->
               exists cd, nth_error (cores mc0) (ev_core e) = Some (cd, PcRunning)) /\
    (forall sched2 tr2 mc2,
        run sched2 (reenter mc1) = Some (tr2, mc2) ->
        tr2 = [] /\ ram mc2 = ram mc1).
Proof.
  intros mc0 mc1 sched tr Hstart Hrun Hdone.
  pose proof (run_preserves mc0 sched mc0 mc1 [] tr (sync_inv_start mc0 Hstart) Hrun)
    as Hinv.
  cbn [app] in Hinv.
  split; [apply Hinv|]. split; [|split].
  - intros k cd Hk.
    rewrite (events_at_done mc0 mc1 tr k cd Hinv Hdone Hk).
    apply filter_partition_perm.
  - intros e He.
    destruct (event_origin mc0 mc1 sched tr Hstart Hrun Hdone e He) as (cd & Hk & _).
    exists cd. exact Hk.
  - intros sched2 tr2 mc2 Hrun2.
    apply (run_without_requests (reenter mc1) mc2 sched2 tr2); trivial.
    + apply reenter_running.
    + pose proof (done_cores_no_requests mc0 mc1 sched tr Hstart Hrun Hdone) as Hnone.
      unfold reenter. cbn [cores]. rewrite Forall_map. exact Hnone.
Qed.

(** In the exchange core 0 has two requests pending and makes two
    copies; a second synchronisation leaves the byte the put stored. *)
Lemma sync_applies_requests_once_witness :
  let again := [0; 1; 0; 1; 0; 1; 0; 1; 0; 1; 0; 1]%nat in
  let r2 := match run again (reenter (snd exchange_result)) with
            | Some r => r
            | None => ([], reenter (snd exchange_result))
            end in
  length (events_of 0 (fst exchange_result)) = 2%nat /\
  fst r2 = [] /\
  ram (snd r2) 0x80905000 = 7.
Proof.
  intros again r2.
  assert (Hstart : all_at PcRunning (machine_of exchange))
    by (repeat constructor).
  assert (Hrun : run exchange_schedule (machine_of exchange)
                 = Some (fst exchange_result, snd exchange_result))
    by (apply run_result; vm_compute; reflexivity).
  assert (Hdone : all_at PcDone (snd exchange_result))
    by (apply all_at_done; vm_compute; reflexivity).
  assert (Hrun2 : run again (reenter (snd exchange_result)) = Some (fst r2, snd r2))
    by (apply run_result; vm_compute; reflexivity).
  destruct (sync_applies_requests_once _ _ _ _ Hstart Hrun Hdone)
    as (_ & Hperm & _ & Hagain).
  destruct (Hagain again (fst r2) (snd r2) Hrun2) as (Hnone & Hram).
  split; [|split].
  - exact (eq_trans
             (Permutation_length
                (Hperm 0%nat (nth 0 (sys_cores exchange) core0) eq_refl))
             eq_refl).
  - exact Hnone.
  - exact (eq_trans (f_equal (fun m => m 0x80905000) Hram) eq_refl).
Defined.

(** ** Messages to the host *)

Lemma exec_call_host_out (P : platform) (c : bsp_call) (s : state) :
  pid (coredata (exec_call P c s)) = pid (coredata s) /\
  (host_out (exec_call P c s) = host_out s \/
   exists e, host_out (exec_call P c s) = host_out s ++ [(pid (coredata s) + 1, e)]).
Proof.
  destruct c; cbn [exec_call];
    unfold bsp_push_reg, bsp_put, bsp_hpput, bsp_get, bsp_hpget, bsp_set_tagsize,
           bsp_send, bsp_qsize, bsp_get_tag, bsp_move, bsp_hpmove,
           _get_remote_addr, _next_queue_message, _pop_queue_message;
    repeat (match goal with
            | |- context [find_slot ?a ?b ?c ?d] => destruct (find_slot a b c d)
            | |- context [next_from ?a ?b ?c ?d] =>
                destruct (next_from a b c d) as [[?|] ?]
            | |- context [qsize_loop ?a ?b ?c ?d ?e ?f] =>
                destruct (qsize_loop a b c d e f) as [[? ?] ?]
            | |- context [if ?b then _ else _] => destruct b
            end; cbn);
    cbn; (split; [reflexivity|]);
    first [left; reflexivity | right; eexists; reflexivity].
Qed.

Lemma exec_op_host_out (P : platform) (o : bsp_op) (s : state) :
  pid (coredata (exec_op P o s)) = pid (coredata s) /\
  (host_out (exec_op P o s) = host_out s \/
   exists e, host_out (exec_op P o s) = host_out s ++ [(pid (coredata s) + 1, e)]).
Proof.
  destruct o as [c|]; cbn [exec_op]; [apply exec_call_host_out|].
  split; [|left; reflexivity].
  unfold bsp_sync, sync_tail_core. cbn.
  destruct (negb (var_pushed (coredata s) =? 0)); reflexivity.
Qed.

(** X21: What the host is told is an append-only log with at most one line
    per call, each under the caller's number: over any sequence of calls
    and synchronisations of a core, the log afterwards is the log before
    followed by no more entries than there were calls, each carrying
    [pid + 1], the value [ebsp_message] leaves in the message flag; the
    core's pid does not change, and [bsp_sync] itself reports nothing. *)
Theorem host_log_append_only :
  forall (P : platform) (ops : list bsp_op) (s : state),
    pid (coredata (run_ops P ops s)) = pid (coredata s) /\
    host_out (bsp_sync s) = host_out s /\
    exists l,
      host_out (run_ops P ops s) = host_out s ++ l /\
      (length l <= length ops)%nat /\
      Forall (fun line => fst line = pid (coredata s) + 1) l.
Proof.
  intros P ops. unfold run_ops.
  induction ops as [|o ops IH]; intros s; cbn [fold_left].
  - split; [reflexivity|]. split; [reflexivity|].
    exists []. rewrite app_nil_r. repeat split; constructor.
  - destruct (exec_op_host_out P o s) as (Hpid & Hout).
    destruct (IH (exec_op P o s)) as (Hpid' & _ & l & Hl & Hlen & Hall).
    split; [congruence|]. split; [reflexivity|].
    rewrite Hpid in Hall.
    destruct Hout as [Hsame | (e & Hadd)].
    + exists l. rewrite Hl, Hsame. repeat split; trivial. cbn [length]. lia.
    + exists ((pid (coredata s) + 1, e) :: l).
      rewrite Hl, Hadd, <- app_assoc. repeat split; cbn [length app]; trivial; [lia|].
      constructor; trivial.
Qed.
